(** * IndiStream front end: upload pipeline and playback controller

    A shallow embedding of the stateful logic of
    [src/app/(tabs)/index.tsx] (the home screen: remote API client, upload
    pipeline, catalog refresh and deletion) and of [src/app/video-player.tsx]
    (the player screen: seek, rate cycling, time formatting, progress
    derivation, auto-hiding controls).

    Conventions of the embedding.
    - A JavaScript string is its sequence of UTF-16 code units.
    - A JavaScript number is an exact rational ([Q]); the values the screens
      handle (pixel offsets, millisecond counts, the six playback rates, HTTP
      status codes) are all finite, so NaN and the infinities stay outside the
      model.  Numbers that are integral by construction (HTTP status, upload
      progress, array indices) are [Z].
    - An [async] function is a computation in the [Task] monad: it receives the
      remote service as an oracle answering each request, returns a value or
      throws, and records every externally visible effect (React state
      setter, request, alert, console output) in order.
    - A handler reads the state captured by the render it was created in and
      writes through setters; the state after the handler is the captured
      state with the recorded setter calls applied in order. *)

From Stdlib Require Import String Ascii DecimalString.
From Stdlib Require Import Bool ZArith QArith Qround Lia Lqa List Permutation.
Import ListNotations.

Local Open Scope string_scope.
Local Open Scope list_scope.
Local Open Scope Z_scope.

(** ** JavaScript values *)

Module JS.

Definition jsstring := list N.

(** A source literal, as code units. *)
Definition str (s : string) : jsstring :=
  map N_of_ascii (list_ascii_of_string s).

(** ECMAScript WhiteSpace and LineTerminator code points, the characters
    [String.prototype.trim] strips. *)
Definition whitespace : list N :=
  [ 9; 10; 11; 12; 13; 32; 160; 5760;
    8192; 8193; 8194; 8195; 8196; 8197; 8198; 8199; 8200; 8201; 8202;
    8232; 8233; 8239; 8287; 12288; 65279 ]%N.

Definition isWhiteSpace (c : N) : bool := existsb (N.eqb c) whitespace.

Fixpoint trimStart (s : jsstring) : jsstring :=
  match s with
  | c :: r => if isWhiteSpace c then trimStart r else s
  | [] => []
  end.

Definition trimEnd (s : jsstring) : jsstring := rev (trimStart (rev s)).

Definition trim (s : jsstring) : jsstring := trimEnd (trimStart s).

(** [Number.prototype.toString] on an integral number. *)
Definition toString (z : Z) : jsstring :=
  str (NilZero.string_of_int (Z.to_int z)).

(** [String.prototype.padStart(targetLength, padString)] for a one-character
    pad string. *)
Definition padStart (targetLength : nat) (pad : N) (s : jsstring) : jsstring :=
  repeat pad (targetLength - length s) ++ s.

#[warnings="-register-all"]
Inductive jsval :=
| VUndefined
| VNull
| VBool (b : bool)
| VNum (q : Q)
| VStr (s : jsstring)
| VObj (fields : list (string * jsval))
| VArr (items : list jsval).

(** ToBoolean. *)
Definition truthy (v : jsval) : bool :=
  match v with
  | VUndefined | VNull => false
  | VBool b => b
  | VNum q => negb (Qeq_bool q 0%Q)
  | VStr s => match s with [] => false | _ => true end
  | VObj _ | VArr _ => true
  end.

Definition truthy_string (s : jsstring) : bool :=
  match s with [] => false | _ => true end.

Fixpoint lookup (k : string) (fields : list (string * jsval)) : jsval :=
  match fields with
  | [] => VUndefined
  | (k', v) :: r => if String.eqb k k' then v else lookup k r
  end.

(** ToBoolean of a number. *)
Definition truthy_number (q : Q) : bool := negb (Qeq_bool q 0).

(** ToBoolean of a property that is a number or [undefined]. *)
Definition truthy_field (o : option Q) : bool :=
  match o with
  | Some q => truthy_number q
  | None => false
  end.

(** The number in a field already tested truthy. *)
Definition number (o : option Q) : Q :=
  match o with
  | Some q => q
  | None => 0
  end.

Definition Math_max (a b : Q) : Q := if Qle_bool a b then b else a.
Definition Math_min (a b : Q) : Q := if Qle_bool a b then a else b.
Definition Math_floor (q : Q) : Z := Qfloor q.

Inductive Exn :=
| JsError (name : string) (message : jsstring).

Definition Error (message : jsstring) : Exn := JsError "Error" message.

Inductive Result (A : Type) :=
| Ok (a : A)
| Thrown (e : Exn).
Arguments Ok {A} a.
Arguments Thrown {A} e.

(** [v.k]: throws on [undefined] and [null]; the keys read by the screens
    ([url], [filename], [videos], [playback_url]) are own properties of
    plain objects only. *)
Definition prop (v : jsval) (k : string) : Result jsval :=
  match v with
  | VUndefined | VNull =>
      Thrown (JsError "TypeError" (str "Cannot read property of null or undefined"))
  | VObj fields => Ok (lookup k fields)
  | _ => Ok VUndefined
  end.

(** [v?.k] *)
Definition opt_prop (v : jsval) (k : string) : jsval :=
  match v with
  | VObj fields => lookup k fields
  | _ => VUndefined
  end.

End JS.
Import JS.

(** ** Home screen: [src/app/(tabs)/index.tsx] *)

Module HomeScreen.

(** *** The remote service *)

(** One constructor per external call a [videoAPI] function makes. *)
Inductive Request :=
| PostUploadUrl                                    (* POST /videos/upload-url *)
| PutFile (uploadUrl : jsval) (fileUri : jsstring) (* FileSystem.uploadAsync, PUT *)
| PostVideo (title : jsstring) (filename : jsval)  (* POST /videos/ *)
| GetReady                                         (* GET /videos/ready *)
| GetVideo (id : jsstring)                         (* GET /videos/:id *)
| GetPlay (id : jsstring)                          (* GET /videos/:id/play *)
| DeleteVideo (id : jsstring).                     (* DELETE /videos/:id *)

(** A response; [body = None] is a body [response.json()] rejects. *)
Record Response := mkResponse {
  status : Z;
  statusText : jsstring;
  body : option jsval
}.

(** [Response.ok] of the Fetch standard. *)
Definition ok (r : Response) : bool := (200 <=? status r) && (status r <=? 299).

Inductive Reply :=
| Rejected (reason : Exn)   (* the promise rejects: no response at all *)
| Replied (r : Response).

(** Within one handler run every request is distinct, so a function of the
    request describes any behaviour of the service during that run. *)
Definition Remote := Request -> Reply.

(** *** Screen state and effects *)

Record HomeState := mkHome {
  videos : jsval;
  loading : bool;
  refreshing : bool;
  showUploadModal : bool;
  uploadTitle : jsstring;
  selectedVideo : option jsstring;
  uploading : bool;
  uploadProgress : Z
}.

Inductive Update :=
| SetVideos (v : jsval)
| SetLoading (b : bool)
| SetRefreshing (b : bool)
| SetShowUploadModal (b : bool)
| SetUploadTitle (s : jsstring)
| SetSelectedVideo (o : option jsstring)
| SetUploading (b : bool)
| SetUploadProgress (n : Z).

Definition apply_update (s : HomeState) (u : Update) : HomeState :=
  match u with
  | SetVideos v => mkHome v (loading s) (refreshing s) (showUploadModal s)
                     (uploadTitle s) (selectedVideo s) (uploading s) (uploadProgress s)
  | SetLoading b => mkHome (videos s) b (refreshing s) (showUploadModal s)
                     (uploadTitle s) (selectedVideo s) (uploading s) (uploadProgress s)
  | SetRefreshing b => mkHome (videos s) (loading s) b (showUploadModal s)
                     (uploadTitle s) (selectedVideo s) (uploading s) (uploadProgress s)
  | SetShowUploadModal b => mkHome (videos s) (loading s) (refreshing s) b
                     (uploadTitle s) (selectedVideo s) (uploading s) (uploadProgress s)
  | SetUploadTitle t => mkHome (videos s) (loading s) (refreshing s) (showUploadModal s)
                     t (selectedVideo s) (uploading s) (uploadProgress s)
  | SetSelectedVideo o => mkHome (videos s) (loading s) (refreshing s) (showUploadModal s)
                     (uploadTitle s) o (uploading s) (uploadProgress s)
  | SetUploading b => mkHome (videos s) (loading s) (refreshing s) (showUploadModal s)
                     (uploadTitle s) (selectedVideo s) b (uploadProgress s)
  | SetUploadProgress n => mkHome (videos s) (loading s) (refreshing s) (showUploadModal s)
                     (uploadTitle s) (selectedVideo s) (uploading s) n
  end.

Inductive Effect :=
| ESet (u : Update)
| ERequest (q : Request)
| EAlert (title message : jsstring)
| EConsoleError (label : jsstring) (e : Exn).

(** *** The [Task] monad *)

Definition Task (A : Type) : Type := Remote -> Result A * list Effect.

Definition ret {A} (a : A) : Task A := fun _ => (Ok a, []).

Definition bind {A B} (m : Task A) (f : A -> Task B) : Task B :=
  fun R =>
    match m R with
    | (Ok a, l) => let (r, l') := f a R in (r, l ++ l')
    | (Thrown e, l) => (Thrown e, l)
    end.

Definition throw {A} (e : Exn) : Task A := fun _ => (Thrown e, []).

Definition lift {A} (r : Result A) : Task A := fun _ => (r, []).

Definition emit (e : Effect) : Task unit := fun _ => (Ok tt, [e]).

(** [try { m } catch (error) { h error }] *)
Definition try_catch {A} (m : Task A) (h : Exn -> Task A) : Task A :=
  fun R =>
    match m R with
    | (Thrown e, l) => let (r, l') := h e R in (r, l ++ l')
    | done => done
    end.

(** [try { m } finally { f }] *)
Definition finally {A} (m : Task A) (f : Task unit) : Task A :=
  fun R =>
    let (r, l) := m R in
    match f R with
    | (Ok _, l') => (r, l ++ l')
    | (Thrown e, l') => (Thrown e, l ++ l')
    end.

Declare Scope task_scope.
Delimit Scope task_scope with task.
Notation "x <- m ;; k" := (bind m (fun x => k))
  (at level 61, m at next level, right associativity) : task_scope.
Notation "m ;; k" := (bind m (fun _ => k))
  (at level 61, right associativity) : task_scope.
Local Open Scope task_scope.

(** Sending a request: the call is made now, the reply settles later. *)
Definition issue (q : Request) : Task Reply := fun R => (Ok (R q), [ERequest q]).

(** [await] of the pending reply. *)
Definition settle (p : Reply) : Task Response :=
  match p with
  | Replied r => ret r
  | Rejected e => throw e
  end.

Definition await_request (q : Request) : Task Response :=
  p <- issue q ;; settle p.

(** [await response.json()] *)
Definition json (r : Response) : Task jsval :=
  match body r with
  | Some v => ret v
  | None => throw (JsError "SyntaxError" (str "JSON Parse error"))
  end.

(** A setter call records the update; the render it schedules runs after
    the handler's current step, so the call itself does not throw. *)
Definition set (u : Update) : Task unit := emit (ESet u).
Definition alert (title message : string) : Task unit :=
  emit (EAlert (str title) (str message)).
Definition console_error (label : string) (e : Exn) : Task unit :=
  emit (EConsoleError (str label) e).

(** *** [videoAPI] *)

Definition getUploadURL : Task jsval :=
  response <- await_request PostUploadUrl ;;
  if negb (ok response)
  then throw (Error (str "Failed to get upload URL: " ++ statusText response))
  else json response.

Definition uploadVideoFile (uploadUrl : jsval) (fileUri : jsstring) : Task unit :=
  response <- await_request (PutFile uploadUrl fileUri) ;;
  if negb (status response =? 200)
  then throw (Error (str "Failed to upload video: " ++ toString (status response)))
  else ret tt.

Definition createVideoMetadata (title : jsstring) (filename : jsval) : Task unit :=
  response <- await_request (PostVideo title filename) ;;
  if negb (ok response)
  then throw (Error (str "Failed to create video metadata: " ++ statusText response))
  else ret tt.

(** [getReadyVideos] after its request has been sent. *)
Definition getReadyVideos_resume (p : Reply) : Task jsval :=
  response <- settle p ;;
  if negb (ok response)
  then throw (Error (str "Failed to fetch videos: " ++ statusText response))
  else json response.

Definition getReadyVideos : Task jsval :=
  p <- issue GetReady ;; getReadyVideos_resume p.

Definition getVideoById (id : jsstring) : Task jsval :=
  response <- await_request (GetVideo id) ;;
  if negb (ok response)
  then throw (Error (str "Failed to fetch video: " ++ statusText response))
  else json response.

Definition getPlaybackURL (id : jsstring) : Task jsval :=
  response <- await_request (GetPlay id) ;;
  if negb (ok response)
  then throw (Error (str "Failed to get playback URL: " ++ statusText response))
  else
    data <- json response ;;
    url <- lift (prop data "url") ;;
    if truthy url then ret url else lift (prop data "playback_url").

Definition deleteVideo (id : jsstring) : Task unit :=
  response <- await_request (DeleteVideo id) ;;
  if negb (ok response)
  then throw (Error (str "Failed to delete video: " ++ statusText response))
  else ret tt.

(** *** [loadVideos] *)

(** The synchronous head of [loadVideos], up to the first [await]: the
    indicator is raised and the request is sent. *)
Definition loadVideos_begin (showRefreshIndicator : bool) : Task Reply :=
  (if showRefreshIndicator then set (SetRefreshing true) else set (SetLoading true)) ;;
  issue GetReady.

(** The rest of [loadVideos], once the reply settles. *)
Definition loadVideos_resume (p : Reply) : Task unit :=
  finally
    (try_catch
       (fetchedVideos <- getReadyVideos_resume p ;;
        set (SetVideos (opt_prop fetchedVideos "videos")))
       (fun error =>
          console_error "Failed to load videos:" error ;;
          alert "Error" "Failed to load videos. Please try again."))
    (set (SetLoading false) ;; set (SetRefreshing false)).

Definition loadVideos (showRefreshIndicator : bool) : Task unit :=
  p <- loadVideos_begin showRefreshIndicator ;; loadVideos_resume p.

(** *** [handleUpload] *)

Definition selected (o : option jsstring) : bool :=
  match o with
  | Some uri => truthy_string uri
  | None => false
  end.

(** [selectedVideo] where the guard has narrowed it to a string. *)
Definition fileOf (s : HomeState) : jsstring :=
  match selectedVideo s with Some uri => uri | None => [] end.

(** [handleUpload] as created by a render with state [s].  It calls
    [loadVideos()] without awaiting it, so it returns, next to its own
    completion, the refresh it left pending (if any). *)
Definition handleUpload (s : HomeState) : Task (option Reply) :=
  if negb (selected (selectedVideo s)) || negb (truthy_string (trim (uploadTitle s)))
  then
    alert "Error" "Please select a video and enter a title." ;;
    ret None
  else
    let fileUri := fileOf s in
    set (SetUploading true) ;;
    set (SetUploadProgress 0) ;;
    finally
      (try_catch
         ((* Step 1: Get upload URL *)
          set (SetUploadProgress 20) ;;
          uploadData <- getUploadURL ;;
          (* Step 2: Upload video file to S3 *)
          set (SetUploadProgress 40) ;;
          url <- lift (prop uploadData "url") ;;
          uploadVideoFile url fileUri ;;
          (* Step 3: Create video metadata *)
          set (SetUploadProgress 80) ;;
          filename <- lift (prop uploadData "filename") ;;
          createVideoMetadata (trim (uploadTitle s)) filename ;;
          set (SetUploadProgress 100) ;;
          (* Reset form and close modal *)
          set (SetUploadTitle []) ;;
          set (SetSelectedVideo None) ;;
          set (SetShowUploadModal false) ;;
          alert "Success" "Video uploaded successfully!" ;;
          (* Refresh video list *)
          pending <- loadVideos_begin false ;;
          ret (Some pending))
         (fun error =>
            console_error "Upload failed:" error ;;
            alert "Error" "Failed to upload video. Please try again." ;;
            ret None))
      (set (SetUploading false) ;;
       set (SetUploadProgress 0)).

(** Everything one press of the upload button causes: [handleUpload] runs
    to completion, then the refresh it started settles. *)
Definition submit (s : HomeState) : Task unit :=
  pending <- handleUpload s ;;
  match pending with
  | Some p => loadVideos_resume p
  | None => ret tt
  end.

(** *** [handleDeleteVideo] *)

(** The button of the confirmation dialog the user ends up pressing. *)
Inductive Choice := Cancel | Delete.

Definition handleDeleteVideo (videoId : jsstring) (choice : Choice) : Task unit :=
  alert "Delete Video" "Are you sure you want to delete this video?" ;;
  match choice with
  | Cancel => ret tt
  | Delete =>
      try_catch
        (deleteVideo videoId ;;
         alert "Success" "Video deleted successfully!" ;;
         loadVideos false)
        (fun error =>
           console_error "Failed to delete video:" error ;;
           alert "Error" "Failed to delete video.")
  end.

(** *** Observations on a run *)

Definition run {A} (t : Task A) (R : Remote) : list Effect := snd (t R).
Definition outcome {A} (t : Task A) (R : Remote) : Result A := fst (t R).

Fixpoint requests (l : list Effect) : list Request :=
  match l with
  | ERequest q :: r => q :: requests r
  | _ :: r => requests r
  | [] => []
  end.

Fixpoint updates (l : list Effect) : list Update :=
  match l with
  | ESet u :: r => u :: updates r
  | _ :: r => updates r
  | [] => []
  end.

(** The values written to [uploadProgress], in order. *)
Fixpoint progress_trace (l : list Effect) : list Z :=
  match l with
  | ESet (SetUploadProgress n) :: r => n :: progress_trace r
  | _ :: r => progress_trace r
  | [] => []
  end.

Definition final_state (s : HomeState) (l : list Effect) : HomeState :=
  fold_left apply_update (updates l) s.

(** *** The specification's vocabulary *)

(** A selected local file and a title that is non-empty after trimming. *)
Definition valid (s : HomeState) : Prop :=
  selected (selectedVideo s) = true /\ trim (uploadTitle s) <> [].

(** Phase 1 succeeds: a success status and a body whose [url] and
    [filename] can be read. *)
Definition acquired (R : Remote) : option (jsval * jsval) :=
  match R PostUploadUrl with
  | Replied r =>
      if ok r
      then match body r with
           | Some data =>
               match prop data "url", prop data "filename" with
               | Ok url, Ok filename => Some (url, filename)
               | _, _ => None
               end
           | None => None
           end
      else None
  | Rejected _ => None
  end.

(** Phase 2 succeeds: the transfer reports status 200. *)
Definition transferred (R : Remote) (url : jsval) (fileUri : jsstring) : bool :=
  match R (PutFile url fileUri) with
  | Replied r => status r =? 200
  | Rejected _ => false
  end.

(** Phase 3 succeeds: the create call returns a success status. *)
Definition committed (R : Remote) (title : jsstring) (filename : jsval) : bool :=
  match R (PostVideo title filename) with
  | Replied r => ok r
  | Rejected _ => false
  end.

(** The success path: all three phases succeed. *)
Definition success_path (s : HomeState) (R : Remote) : bool :=
  match acquired R with
  | Some (url, filename) =>
      transferred R url (fileOf s) && committed R (trim (uploadTitle s)) filename
  | None => false
  end.

Fixpoint nondecreasing (l : list Z) : bool :=
  match l with
  | a :: r => match r with
              | b :: _ => (a <=? b) && nondecreasing r
              | [] => true
              end
  | [] => true
  end.

(** The progress property as the specification words it: the values written
    are non-decreasing, are exactly 0, 20, 40, 80, 100, and the session ends
    with progress 100. *)
Definition progress_ends_at_100 (s : HomeState) (R : Remote) : Prop :=
  let l := run (submit s) R in
  nondecreasing (progress_trace l) = true
  /\ progress_trace l = [0; 20; 40; 80; 100]
  /\ uploadProgress (final_state s l) = 100.

(** The effects of the pipeline proper on the success path, up to the
    moment the pending refresh settles. *)
Definition success_effects (s : HomeState) (url filename : jsval) : list Effect :=
  [ ESet (SetUploading true); ESet (SetUploadProgress 0);
    ESet (SetUploadProgress 20); ERequest PostUploadUrl;
    ESet (SetUploadProgress 40); ERequest (PutFile url (fileOf s));
    ESet (SetUploadProgress 80); ERequest (PostVideo (trim (uploadTitle s)) filename);
    ESet (SetUploadProgress 100);
    ESet (SetUploadTitle []); ESet (SetSelectedVideo None);
    ESet (SetShowUploadModal false);
    EAlert (str "Success") (str "Video uploaded successfully!");
    ESet (SetLoading true); ERequest GetReady;
    ESet (SetUploading false); ESet (SetUploadProgress 0) ].

(** What a settled refresh stores: [fetchedVideos?.videos] of a success
    response with a readable body. *)
Definition refreshed (p : Reply) : option jsval :=
  match p with
  | Replied r =>
      if ok r
      then match body r with
           | Some fetchedVideos => Some (opt_prop fetchedVideos "videos")
           | None => None
           end
      else None
  | Rejected _ => None
  end.

(** The transfer phase fails whatever destination it is given. *)
Definition transfer_fails (s : HomeState) (R : Remote) : Prop :=
  forall url, transferred R url (fileOf s) = false.

(** Sample data: a form holding a picked file and the title [Demo], and
    three services: one on which every call succeeds, one whose transfer
    answers 500, one that answers every call with 500. *)
Definition demo : HomeState :=
  mkHome (VArr []) false false true (str "Demo") (Some (str "file:///cache/demo.mp4"))
    false 0.

Definition target : jsval :=
  VObj [("filename", VStr (str "a1b2.mp4"));
        ("url", VStr (str "https://bucket.example/a1b2.mp4"));
        ("video_id", VStr (str "42"))].

Definition catalog : jsval :=
  VObj [("videos", VArr [VObj [("id", VStr (str "42")); ("title", VStr (str "Demo"))]])].

Definition healthy : Remote :=
  fun q =>
    match q with
    | PostUploadUrl => Replied (mkResponse 200 (str "OK") (Some target))
    | PutFile _ _ => Replied (mkResponse 200 [] None)
    | PostVideo _ _ => Replied (mkResponse 201 (str "Created") None)
    | GetReady => Replied (mkResponse 200 (str "OK") (Some catalog))
    | _ => Replied (mkResponse 200 (str "OK") (Some (VObj [])))
    end.

Definition transfer_500 : Remote :=
  fun q =>
    match q with
    | PutFile _ _ => Replied (mkResponse 500 [] None)
    | _ => healthy q
    end.

Definition down : Remote :=
  fun _ => Replied (mkResponse 500 (str "Internal Server Error") None).

(** Every run of the pipeline, by the first phase that fails. *)
Inductive Stage (s : HomeState) (R : Remote) : list Request -> Prop :=
| Refused :
    negb (selected (selectedVideo s)) || negb (truthy_string (trim (uploadTitle s))) = true ->
    Stage s R []
| AcquireFailed :
    acquired R = None ->
    Stage s R [PostUploadUrl]
| TransferFailed url filename :
    acquired R = Some (url, filename) ->
    transferred R url (fileOf s) = false ->
    Stage s R [PostUploadUrl; PutFile url (fileOf s)]
| CommitFailed url filename :
    acquired R = Some (url, filename) ->
    transferred R url (fileOf s) = true ->
    committed R (trim (uploadTitle s)) filename = false ->
    Stage s R [PostUploadUrl; PutFile url (fileOf s);
               PostVideo (trim (uploadTitle s)) filename]
| Published url filename :
    acquired R = Some (url, filename) ->
    transferred R url (fileOf s) = true ->
    committed R (trim (uploadTitle s)) filename = true ->
    Stage s R [PostUploadUrl; PutFile url (fileOf s);
               PostVideo (trim (uploadTitle s)) filename; GetReady].

(** A delete call succeeds: a success status. *)
Definition deleted (p : Reply) : bool :=
  match p with
  | Replied r => ok r
  | Rejected _ => false
  end.

(** Two answers to a playback request, one per field name. *)
Definition plays_by_url : Remote :=
  fun q =>
    match q with
    | GetPlay _ => Replied (mkResponse 200 (str "OK")
                     (Some (VObj [("url", VStr (str "https://cdn.example/42.m3u8"))])))
    | _ => healthy q
    end.

Definition plays_by_playback_url : Remote :=
  fun q =>
    match q with
    | GetPlay _ => Replied (mkResponse 200 (str "OK")
                     (Some (VObj [("playback_url", VStr (str "https://cdn.example/42.m3u8"))])))
    | _ => healthy q
    end.

(** Two success answers to a playback request that carry no object: the
    JSON value [null], and a body that is not JSON. *)
Definition plays_null : Remote :=
  fun q =>
    match q with
    | GetPlay _ => Replied (mkResponse 200 (str "OK") (Some VNull))
    | _ => healthy q
    end.

Definition plays_garbled : Remote :=
  fun q =>
    match q with
    | GetPlay _ => Replied (mkResponse 200 (str "OK") None)
    | _ => healthy q
    end.

(** The fallback as the specification words it: on every successful
    response the call returns a value, the body's [url] when that is truthy
    and its [playback_url] otherwise. *)
Definition returns_either_field (id : jsstring) (R : Remote) : Prop :=
  forall r, R (GetPlay id) = Replied r -> ok r = true ->
  exists data,
    body r = Some data
    /\ outcome (getPlaybackURL id) R =
         Ok (if truthy (opt_prop data "url")
             then opt_prop data "url"
             else opt_prop data "playback_url").

(** The sample form with a title of blanks only. *)
Definition blank_title : HomeState :=
  mkHome (VArr []) false false true (str "   ") (Some (str "file:///cache/demo.mp4"))
    false 0.

(** [l] is an initial segment of [m]. *)
Definition prefix (l m : list Request) : Prop := exists r, m = l ++ r.

End HomeScreen.

(** ** Player screen: [src/app/video-player.tsx] *)

Module VideoPlayer.

Local Open Scope Q_scope.

(** *** State *)

(** The playback status object kept in [status].  The initial [{}] has every
    field [undefined]; [isLoaded] and [shouldPlay] are only ever tested for
    truthiness, so [undefined] reads as [false]. *)
Record PlaybackStatus := mkStatus {
  isLoaded : bool;
  positionMillis : option Q;
  durationMillis : option Q;
  shouldPlay : bool
}.

Definition emptyStatus : PlaybackStatus := mkStatus false None None false.

Record Player := mkPlayer {
  status : PlaybackStatus;
  isPlaying : bool;
  isLoading : bool;
  showControls : bool;
  playbackRate : Q;
  isMuted : bool;
  progressBarWidth : Q;
  controlsOpacity : Q;   (* target of the last [withTiming] *)
  progressValue : Q;
  videoRef : bool        (* [videoRef.current] is attached *)
}.

(** The state of the first render. *)
Definition mount : Player :=
  mkPlayer emptyStatus true true true 1 false 0 1 0 true.

Definition setStatus (s : PlaybackStatus) (p : Player) : Player :=
  mkPlayer s (isPlaying p) (isLoading p) (showControls p) (playbackRate p)
    (isMuted p) (progressBarWidth p) (controlsOpacity p) (progressValue p) (videoRef p).
Definition setIsPlaying (b : bool) (p : Player) : Player :=
  mkPlayer (status p) b (isLoading p) (showControls p) (playbackRate p)
    (isMuted p) (progressBarWidth p) (controlsOpacity p) (progressValue p) (videoRef p).
Definition setIsLoading (b : bool) (p : Player) : Player :=
  mkPlayer (status p) (isPlaying p) b (showControls p) (playbackRate p)
    (isMuted p) (progressBarWidth p) (controlsOpacity p) (progressValue p) (videoRef p).
Definition setShowControls (b : bool) (p : Player) : Player :=
  mkPlayer (status p) (isPlaying p) (isLoading p) b (playbackRate p)
    (isMuted p) (progressBarWidth p) (controlsOpacity p) (progressValue p) (videoRef p).
Definition setPlaybackRate (r : Q) (p : Player) : Player :=
  mkPlayer (status p) (isPlaying p) (isLoading p) (showControls p) r
    (isMuted p) (progressBarWidth p) (controlsOpacity p) (progressValue p) (videoRef p).
Definition setIsMuted (b : bool) (p : Player) : Player :=
  mkPlayer (status p) (isPlaying p) (isLoading p) (showControls p) (playbackRate p)
    b (progressBarWidth p) (controlsOpacity p) (progressValue p) (videoRef p).
Definition setProgressBarWidth (w : Q) (p : Player) : Player :=
  mkPlayer (status p) (isPlaying p) (isLoading p) (showControls p) (playbackRate p)
    (isMuted p) w (controlsOpacity p) (progressValue p) (videoRef p).
Definition setControlsOpacity (o : Q) (p : Player) : Player :=
  mkPlayer (status p) (isPlaying p) (isLoading p) (showControls p) (playbackRate p)
    (isMuted p) (progressBarWidth p) o (progressValue p) (videoRef p).
Definition setProgressValue (v : Q) (p : Player) : Player :=
  mkPlayer (status p) (isPlaying p) (isLoading p) (showControls p) (playbackRate p)
    (isMuted p) (progressBarWidth p) (controlsOpacity p) v (videoRef p).

(** *** The media engine *)

Inductive Command :=
| PauseAsync
| PlayAsync
| SetPositionAsync (millis : Q)
| SetRateAsync (rate : Q) (shouldCorrectPitch : bool)
| SetIsMutedAsync (muted : bool).

(** Whether the engine acknowledges a command ([true]: the promise resolves)
    or rejects it. *)
Definition Engine := Command -> bool.

(** A handler reads the rendered state and yields the state after its setter
    calls together with the engine commands it issued. *)
Definition Handler := Engine -> Player -> Player * list Command.

(** *** Handlers *)

Definition handleProgressBarLayout (width : Q) : Handler :=
  fun _ p => (setProgressBarWidth width p, []).

Definition seekTo (position : Q) (p : Player) : list Command :=
  if isLoaded (status p) && truthy_field (durationMillis (status p))
  then
    let seekPosition := position * number (durationMillis (status p)) in
    if videoRef p then [SetPositionAsync seekPosition] else []
  else [].

Definition seekRatio (touchX progressBarWidth : Q) : Q :=
  Math_min (Math_max (touchX / progressBarWidth) 0) 1.

Definition handleSeek (touchX : Q) : Handler :=
  fun _ p =>
    if negb (truthy_number (progressBarWidth p))
       || negb (isLoaded (status p))
       || negb (truthy_field (durationMillis (status p)))
    then (p, [])
    else (p, seekTo (seekRatio touchX (progressBarWidth p)) p).

Definition handleScreenTap : Handler :=
  fun _ p =>
    if isLoading p then (p, [])
    else
      (setControlsOpacity (if showControls p then 0 else 1)
         (setShowControls (negb (showControls p)) p), []).

Definition onPlaybackStatusUpdate (playbackStatus : PlaybackStatus) : Handler :=
  fun _ p =>
    let p1 := setStatus playbackStatus p in
    if isLoaded playbackStatus
    then (setIsPlaying (if negb (shouldPlay playbackStatus) then false else true)
            (setIsLoading false p1), [])
    else (p1, []).

Definition togglePlayPause : Handler :=
  fun engine p =>
    if isLoaded (status p)
    then
      let c := if isPlaying p then PauseAsync else PlayAsync in
      if videoRef p
      then if engine c then (setIsPlaying (negb (isPlaying p)) p, [c]) else (p, [c])
      else (setIsPlaying (negb (isPlaying p)) p, [])
    else (p, []).

Definition formatTime (millis : Q) : jsstring :=
  let totalSeconds := Math_floor (millis / 1000) in
  let minutes := (totalSeconds / 60)%Z in          (* floor of the quotient *)
  let seconds := Z.rem totalSeconds 60 in
  toString minutes ++ str ":" ++ padStart 2 48%N (toString seconds).

Definition rates : list Q := [0.5; 0.75; 1.0; 1.25; 1.5; 2.0].

(** [Array.prototype.indexOf]: strict equality, [-1] when absent. *)
Fixpoint indexOf_from (i : Z) (l : list Q) (x : Q) : Z :=
  match l with
  | [] => (-1)%Z
  | y :: r => if Qeq_bool y x then i else indexOf_from (i + 1)%Z r x
  end.
Definition indexOf (l : list Q) (x : Q) : Z := indexOf_from 0%Z l x.

(** [rates[(currentIndex + 1) % rates.length]]; the index always lies within
    the array (see [nextIndex_in_range]), so the default is never read. *)
Definition nextIndex (playbackRate : Q) : Z :=
  Z.rem (indexOf rates playbackRate + 1) (Z.of_nat (length rates)).

Definition nextRate (playbackRate : Q) : Q :=
  nth (Z.to_nat (nextIndex playbackRate)) rates 0.

Definition changePlaybackRate : Handler :=
  fun _ p =>
    let nextRate := nextRate (playbackRate p) in
    let p' := setPlaybackRate nextRate p in
    if videoRef p && isLoaded (status p)
    then (p', [SetRateAsync nextRate true])
    else (p', []).

Definition toggleMute : Handler :=
  fun engine p =>
    if videoRef p && isLoaded (status p)
    then
      let c := SetIsMutedAsync (negb (isMuted p)) in
      if engine c then (setIsMuted (negb (isMuted p)) p, [c]) else (p, [c])
    else (p, []).

(** *** Effects and timers *)

Local Open Scope nat_scope.

(** A pending [setTimeout]: its identifier and the clock reading (in
    milliseconds) at which it is due. *)
Record Timer := mkTimer {
  timer_id : nat;
  fires_at : nat
}.

Inductive TimerEvent :=
| Armed (id : nat) (due : nat)   (* [setTimeout] returned [id] *)
| Cleared (id : nat)             (* [clearTimeout] removed the pending [id] *)
| Fired (id : nat).              (* the callback of [id] ran *)

(** The player screen together with the JavaScript runtime around it. *)
Record World := mkWorld {
  player : Player;
  clock : nat;
  timers : list Timer;
  next_id : nat;
  hide_timeout : option nat;     (* [timeout] as captured by the clean-up of
                                    the hide effect's last run *)
  commands : list Command;       (* issued to the engine, oldest first *)
  timer_log : list TimerEvent    (* oldest first *)
}.

Definition with_player (p : Player) (w : World) : World :=
  mkWorld p (clock w) (timers w) (next_id w) (hide_timeout w) (commands w) (timer_log w).

Definition pending (id : nat) (ts : list Timer) : bool :=
  existsb (fun t => Nat.eqb (timer_id t) id) ts.

Definition remove_timer (id : nat) (ts : list Timer) : list Timer :=
  filter (fun t => negb (Nat.eqb (timer_id t) id)) ts.

(** [clearTimeout(timeout)]: nothing happens for [undefined] or for a timer
    that is no longer pending. *)
Definition clearTimeout (timeout : option nat) (w : World) : World :=
  match timeout with
  | Some id =>
      if pending id (timers w)
      then mkWorld (player w) (clock w) (remove_timer id (timers w)) (next_id w)
             (hide_timeout w) (commands w) (timer_log w ++ [Cleared id])
      else w
  | None => w
  end.

(** [timeout = setTimeout(callback, delay)] inside the hide effect. *)
Definition setTimeout (delay : nat) (w : World) : World :=
  let id := next_id w in
  mkWorld (player w) (clock w) (timers w ++ [mkTimer id (clock w + delay)]) (S id)
    (Some id) (commands w) (timer_log w ++ [Armed id (clock w + delay)]).

(** The hide effect, dependencies [[showControls, isLoading]]: when a
    dependency changed, the previous run's clean-up executes, then the effect
    body. *)
Definition hideEffect (old new : Player) (w : World) : World :=
  if Bool.eqb (showControls old) (showControls new)
     && Bool.eqb (isLoading old) (isLoading new)
  then w
  else
    let w1 := clearTimeout (hide_timeout w) w in
    if showControls new && negb (isLoading new)
    then setTimeout 3000 w1
    else mkWorld (player w1) (clock w1) (timers w1) (next_id w1) None
           (commands w1) (timer_log w1).

Definition same_field (a b : option Q) : bool :=
  match a, b with
  | Some x, Some y => Qeq_bool x y
  | None, None => true
  | _, _ => false
  end.

(** The body of the progress effect. *)
Definition updateProgress (p : Player) : Player :=
  if truthy_field (durationMillis (status p)) && truthy_field (positionMillis (status p))
  then setProgressValue
         (number (positionMillis (status p)) / number (durationMillis (status p)))%Q p
  else p.

(** The progress effect, dependencies
    [[status.positionMillis, status.durationMillis]]. *)
Definition progressEffect (old new : Player) : Player :=
  if same_field (positionMillis (status old)) (positionMillis (status new))
     && same_field (durationMillis (status old)) (durationMillis (status new))
  then new
  else updateProgress new.

(** A render committing the state change [old -> new], followed by its
    effects in declaration order. *)
Definition commit (old new : Player) (w : World) : World :=
  let w1 := hideEffect old new (with_player new w) in
  with_player (progressEffect old (player w1)) w1.

(** Running a handler against the current render. *)
Definition dispatch (h : Handler) (engine : Engine) (w : World) : World :=
  let (p', cs) := h engine (player w) in
  let w' := commit (player w) p' w in
  mkWorld (player w') (clock w') (timers w') (next_id w') (hide_timeout w')
    (commands w' ++ cs) (timer_log w').

(** The callback handed to [setTimeout] by the hide effect. *)
Definition hideCallback : Handler :=
  fun _ p => (setControlsOpacity 0%Q (setShowControls false p), []).

(** A due timer leaves the pending set and its callback runs. *)
Definition fire (engine : Engine) (t : Timer) (w : World) : World :=
  let w1 := mkWorld (player w) (clock w) (remove_timer (timer_id t) (timers w))
              (next_id w) (hide_timeout w) (commands w)
              (timer_log w ++ [Fired (timer_id t)]) in
  dispatch hideCallback engine w1.

Fixpoint fire_due (engine : Engine) (due : list Timer) (w : World) : World :=
  match due with
  | [] => w
  | t :: r =>
      if pending (timer_id t) (timers w)
      then fire_due engine r (fire engine t w)
      else fire_due engine r w
  end.

(** One millisecond passes; the timers that are now due run in the order
    they were armed, unless an earlier callback cleared them. *)
Definition tick (engine : Engine) (w : World) : World :=
  let w1 := mkWorld (player w) (S (clock w)) (timers w) (next_id w)
              (hide_timeout w) (commands w) (timer_log w) in
  fire_due engine (filter (fun t => Nat.leb (fires_at t) (clock w1)) (timers w1)) w1.

Inductive Event :=
| ScreenTap
| StatusUpdate (playbackStatus : PlaybackStatus)
| PlayPausePress
| RatePress
| MutePress
| SeekPress (touchX : Q)
| ProgressBarLayout (width : Q)
| Elapse (millis : nat).

Definition step (engine : Engine) (w : World) (e : Event) : World :=
  match e with
  | ScreenTap => dispatch handleScreenTap engine w
  | StatusUpdate s => dispatch (onPlaybackStatusUpdate s) engine w
  | PlayPausePress => dispatch togglePlayPause engine w
  | RatePress => dispatch changePlaybackRate engine w
  | MutePress => dispatch toggleMute engine w
  | SeekPress x => dispatch (handleSeek x) engine w
  | ProgressBarLayout width => dispatch (handleProgressBarLayout width) engine w
  | Elapse n => Nat.iter n (tick engine) w
  end.

(** The screen right after mounting: on the first render neither effect
    does anything (the player is loading, the status is empty). *)
Definition mounted : World := mkWorld mount 0 [] 0 None [] [].

Definition play (engine : Engine) (es : list Event) : World :=
  fold_left (step engine) es mounted.

Definition fired (l : list TimerEvent) : list nat :=
  flat_map (fun e => match e with Fired id => [id] | _ => [] end) l.
Definition armed (l : list TimerEvent) : list nat :=
  flat_map (fun e => match e with Armed id _ => [id] | _ => [] end) l.
Definition cleared (l : list TimerEvent) : list nat :=
  flat_map (fun e => match e with Cleared id => [id] | _ => [] end) l.

(** *** The specification's vocabulary *)

(** [clamp(v, lo, hi)] with closed bounds. *)
Definition clamp (v lo hi : Q) : Q :=
  if Qlt_le_dec v lo then lo else if Qlt_le_dec hi v then hi else v.

(** A number below one hundred written with exactly two decimal digits. *)
Definition two_digits (n : Z) : jsstring :=
  [ (48 + Z.to_N (n / 10))%N; (48 + Z.to_N (n mod 10))%N ].

(** The condition under which the hide effect arms its timer. *)
Definition visible (p : Player) : bool := showControls p && negb (isLoading p).

(** Controls are shown at load completion, hidden by a tap 100 ms later and
    shown again by a second tap 50 ms after that: the hide timer is armed
    twice within 150 ms.  Four seconds then pass. *)
Definition double_arm : list Event :=
  [StatusUpdate (mkStatus true (Some 0%Q) (Some 150000%Q) true);
   Elapse 100; ScreenTap; Elapse 50; ScreenTap; Elapse 4000].

(** The timer discipline: the pending set and the log agree with each
    other and with what is on screen. *)
Record TimerInv (w : World) : Prop := mkTimerInv {
  inv_pending :
    match timers w with
    | [] => visible (player w) = false
    | [t] => visible (player w) = true
             /\ hide_timeout w = Some (timer_id t)
             /\ clock w < fires_at t <= clock w + 3000
             /\ In (timer_id t) (armed (timer_log w))
             /\ ~ In (timer_id t) (cleared (timer_log w))
             /\ ~ In (timer_id t) (fired (timer_log w))
    | _ => False
    end;
  inv_fresh : forall id, In id (armed (timer_log w)) -> id < next_id w;
  inv_armed_once : NoDup (armed (timer_log w));
  inv_fired : forall id, In id (fired (timer_log w)) ->
                In id (armed (timer_log w)) /\ ~ In id (cleared (timer_log w));
  inv_cleared : forall id, In id (cleared (timer_log w)) -> In id (armed (timer_log w));
  inv_fired_once : NoDup (fired (timer_log w));
  inv_count : length (armed (timer_log w)) =
                length (cleared (timer_log w)) + length (fired (timer_log w))
                + length (timers w)
}.

(** A loaded status at the given position of a 150-second clip. *)
Definition playing_at (position : Q) : PlaybackStatus :=
  mkStatus true (Some position) (Some 150000%Q) true.

(** A player showing that clip on a seek track 200 pixels wide. *)
Definition sample : Player :=
  mkPlayer (playing_at 75000%Q) true false true 1%Q false 200%Q 1%Q 0.5%Q true.

Definition obliging : Engine := fun _ => true.

End VideoPlayer.

(** ** Animated values *)

Module Animated.

Local Open Scope Q_scope.

(** [interpolate] over a single segment, [inputRange: [x0, x1]] and
    [outputRange: [y0, y1]], with [extrapolate: 'clamp']: linear inside the
    segment, the end values outside it. *)
Definition interpolate_clamp (x0 x1 y0 y1 x : Q) : Q :=
  if Qle_bool x x0 then y0
  else if Qle_bool x1 x then y1
  else y0 + (x - x0) * (y1 - y0) / (x1 - x0).

End Animated.

(** ** Home screen, the rest: picking, listing and the upload modal
    ([src/app/(tabs)/index.tsx], [src/components/uploadModal.tsx]) *)

Module HomeViews.
Import HomeScreen.
Local Open Scope task_scope.

(** *** [selectVideo] *)

Record Asset := mkAsset { uri : jsstring }.

(** What [DocumentPicker.getDocumentAsync] settles to. *)
Inductive PickerReply :=
| PickerFailed (error : Exn)
| PickerResult (canceled : bool) (assets : option (list Asset)).

(** [result.assets?.[0]] *)
Definition firstAsset (assets : option (list Asset)) : option Asset :=
  match assets with
  | Some (a :: _) => Some a
  | _ => None
  end.

Definition selectVideo (reply : PickerReply) : list Effect :=
  match reply with
  | PickerFailed error =>
      [EConsoleError (str "Error selecting video:") error;
       EAlert (str "Error") (str "Failed to select video file.")]
  | PickerResult canceled assets =>
      match firstAsset assets with
      | Some a => if negb canceled then [ESet (SetSelectedVideo (Some (uri a)))] else []
      | None => []
      end
  end.

(** *** [handleVideoPress] *)

(** Its alert shows whatever [getPlaybackURL] returned, a value of any
    type, so it gets an effect of its own next to the common ones. *)
Inductive PressEffect :=
| Common (e : Effect)
| AlertValue (title : jsstring) (message : jsval).

(** [handleVideoPress(video)], with [id] standing for [video.id]. *)
Definition handleVideoPress (id : jsstring) (R : Remote) : list PressEffect :=
  match getPlaybackURL id R with
  | (Ok playbackUrl, l) =>
      map Common l ++ [AlertValue (str "Playback URL") playbackUrl]
  | (Thrown error, l) =>
      map Common l
      ++ [Common (EConsoleError (str "Failed to get playback URL:") error);
          Common (EAlert (str "Error") (str "Failed to load video for playback."))]
  end.

Fixpoint press_requests (l : list PressEffect) : list Request :=
  match l with
  | Common (ERequest q) :: r => q :: press_requests r
  | _ :: r => press_requests r
  | [] => []
  end.

Fixpoint press_updates (l : list PressEffect) : list Update :=
  match l with
  | Common (ESet u) :: r => u :: press_updates r
  | _ :: r => press_updates r
  | [] => []
  end.

(** The dialogs of a press: the shown value, or [None] for the error alert. *)
Fixpoint press_alerts (l : list PressEffect) : list (option jsval) :=
  match l with
  | AlertValue _ v :: r => Some v :: press_alerts r
  | Common (EAlert _ _) :: r => None :: press_alerts r
  | _ :: r => press_alerts r
  | [] => []
  end.

(** What a successful [/play] answer makes [getPlaybackURL] return. *)
Definition resolved (p : Reply) : option jsval :=
  match p with
  | Replied r =>
      if ok r
      then match body r with
           | Some data =>
               match prop data "url" with
               | Ok url => if truthy url then Some url
                           else match prop data "playback_url" with
                                | Ok v => Some v
                                | Thrown _ => None
                                end
               | Thrown _ => None
               end
           | None => None
           end
      else None
  | Rejected _ => None
  end.

(** *** The catalog listing *)

Record Category := mkCategory {
  cat_id : jsstring;
  cat_name : jsstring;
  cat_icon : string;
  cat_color : string
}.

Definition categories : list Category :=
  [ mkCategory (str "1") (str "All") "grid-outline" "#FF6B35";
    mkCategory (str "2") (str "Music") "musical-notes" "#4ECDC4";
    mkCategory (str "3") (str "Comedy") "happy-outline" "#45B7D1";
    mkCategory (str "4") (str "News") "newspaper-outline" "#96CEB4";
    mkCategory (str "5") (str "Sports") "football-outline" "#FECA57";
    mkCategory (str "6") (str "Movies") "film-outline" "#FF9FF3";
    mkCategory (str "7") (str "Tech") "phone-portrait-outline" "#54A0FF" ].

(** [a === b] on two strings. *)
Fixpoint same_string (a b : jsstring) : bool :=
  match a, b with
  | [], [] => true
  | x :: a', y :: b' => N.eqb x y && same_string a' b'
  | _, _ => false
  end.

(** [v === name] where [name] is a string or [undefined]. *)
Definition strict_eq_name (v : jsval) (name : option jsstring) : bool :=
  match v, name with
  | VStr s, Some n => same_string s n
  | VUndefined, None => true
  | _, _ => false
  end.

Fixpoint startsWith (s p : jsstring) : bool :=
  match p, s with
  | [], _ => true
  | x :: p', y :: s' => N.eqb x y && startsWith s' p'
  | _ :: _, [] => false
  end.

(** [String.prototype.includes] *)
Fixpoint includes (s p : jsstring) : bool :=
  startsWith s p
  || match s with
     | [] => false
     | _ :: r => includes r p
     end.

Definition TypeError (message : string) : Exn := JsError "TypeError" (str message).

Definition rbind {A B} (r : Result A) (f : A -> Result B) : Result B :=
  match r with
  | Ok a => f a
  | Thrown e => Thrown e
  end.

(** [Array.prototype.filter] with a callback that may throw. *)
Fixpoint filterM (f : jsval -> Result bool) (l : list jsval) : Result (list jsval) :=
  match l with
  | [] => Ok []
  | v :: r =>
      rbind (f v) (fun keep =>
      rbind (filterM f r) (fun r' =>
      Ok (if keep then v :: r' else r')))
  end.

Section Search.

(** [String.prototype.toLowerCase] is the engine's Unicode case mapping;
    the listing is modelled for whatever that mapping is. *)
Variable toLowerCase : jsstring -> jsstring.

(** [video.title.toLowerCase()] *)
Definition lowerTitle (video : jsval) : Result jsstring :=
  rbind (prop video "title") (fun title =>
    match title with
    | VStr t => Ok (toLowerCase t)
    | VUndefined | VNull => Thrown (TypeError "Cannot read property of null or undefined")
    | _ => Thrown (TypeError "video.title.toLowerCase is not a function")
    end).

(** The callback of [videos.filter]. *)
Definition matchVideo (selectedCategory searchQuery : jsstring) (video : jsval)
  : Result bool :=
  rbind (if same_string selectedCategory (str "1")
         then Ok true
         else rbind (prop video "category") (fun category =>
                Ok (strict_eq_name category
                      (option_map cat_name
                         (find (fun c => same_string (cat_id c) selectedCategory)
                            categories)))))
    (fun matchCategory =>
  rbind (lowerTitle video) (fun title =>
  let matchSearch := includes title (toLowerCase searchQuery) in
  Ok (matchCategory && matchSearch))).

Definition filteredVideos (videos : jsval) (selectedCategory searchQuery : jsstring)
  : Result (list jsval) :=
  match videos with
  | VArr items => filterM (matchVideo selectedCategory searchQuery) items
  | VUndefined | VNull => Thrown (TypeError "Cannot read property of null or undefined")
  | _ => Thrown (TypeError "videos.filter is not a function")
  end.

(** Whether the callback keeps an item; an item it throws on is not kept. *)
Definition shown (selectedCategory searchQuery : jsstring) (video : jsval) : bool :=
  match matchVideo selectedCategory searchQuery video with
  | Ok keep => keep
  | Thrown _ => false
  end.

End Search.

(** A listable item: an object whose [title] is a string. *)
Definition titled (video : jsval) : Prop :=
  exists fields t, video = VObj fields /\ lookup "title" fields = VStr t.

(** A case mapping for examples: it lowers the ASCII capitals only. *)
Definition asciiLower (s : jsstring) : jsstring :=
  map (fun c => if (65 <=? c)%N && (c <=? 90)%N then (c + 32)%N else c) s.

Definition clip (title category : string) : jsval :=
  VObj [("id", VStr (str "7")); ("title", VStr (str title));
        ("category", VStr (str category)); ("filename", VStr (str "f.mp4"))].

Definition shelf : list jsval :=
  [clip "Morning Raga" "Music"; clip "Budget Speech" "News"; clip "Evening raga" "Music"].

(** A success answer to the listing request whose body has no [videos]. *)
Definition bare_catalog : Remote :=
  fun q =>
    match q with
    | GetReady => Replied (mkResponse 200 (str "OK")
                    (Some (VObj [("count", VNum 0%Q)])))
    | _ => healthy q
    end.

(** The header collapses with the scroll offset. *)
Definition headerHeight (scrollY : Q) : Q :=
  Animated.interpolate_clamp 0%Q 80%Q 100%Q 60%Q scrollY.

(** *** The upload modal *)

(** [disabled] of the Upload button. *)
Definition uploadDisabled (s : HomeState) : bool :=
  uploading s
  || negb (selected (selectedVideo s))
  || negb (truthy_string (trim (uploadTitle s))).

(** [disabled] of the file picker and of Cancel; the title is editable
    exactly when this is false. *)
Definition formDisabled (s : HomeState) : bool := uploading s.

(** The progress bar is rendered only while uploading. *)
Definition progressShown (s : HomeState) : bool := uploading s.

(** *** Observing a run from the screen *)

(** Each request of a run with the screen state at the moment it is sent. *)
Fixpoint before_requests (s : HomeState) (l : list Effect)
  : list (Request * HomeState) :=
  match l with
  | [] => []
  | ERequest q :: r => (q, s) :: before_requests s r
  | ESet u :: r => before_requests (apply_update s u) r
  | _ :: r => before_requests s r
  end.

Fixpoint alerts (l : list Effect) : list (jsstring * jsstring) :=
  match l with
  | EAlert t m :: r => (t, m) :: alerts r
  | _ :: r => alerts r
  | [] => []
  end.

(** The progress on screen while a request of the upload is out. *)
Definition progress_at (q : Request) : Z :=
  match q with
  | PostUploadUrl => 20
  | PutFile _ _ => 40
  | PostVideo _ _ => 80
  | _ => 100
  end.

(** One of the three pipeline calls, as opposed to the refresh. *)
Definition pipeline (q : Request) : bool :=
  match q with
  | PostUploadUrl | PutFile _ _ | PostVideo _ _ => true
  | _ => false
  end.

(** [l] is an initial segment of [m]. *)
Definition initial_segment (l m : list Z) : Prop := exists r, m = l ++ r.

(** How every failed upload ends: the [catch] block, then [finally]. *)
Definition failure_effects (error : Exn) : list Effect :=
  [ EConsoleError (str "Upload failed:") error;
    EAlert (str "Error") (str "Failed to upload video. Please try again.");
    ESet (SetUploading false); ESet (SetUploadProgress 0) ].

Definition opening : list Effect :=
  [ ESet (SetUploading true); ESet (SetUploadProgress 0);
    ESet (SetUploadProgress 20); ERequest PostUploadUrl ].

(** The runs of an upload that passed validation, by the place it stops. *)
Inductive Run (s : HomeState) (R : Remote) : list Effect -> Prop :=
| StopsAtAcquire error :
    outcome getUploadURL R = Thrown error ->
    Run s R (opening ++ failure_effects error)
| StopsAtTarget uploadData error :
    outcome getUploadURL R = Ok uploadData ->
    prop uploadData "url" = Thrown error ->
    Run s R (opening ++ [ESet (SetUploadProgress 40)] ++ failure_effects error)
| StopsAtTransfer uploadData url error :
    outcome getUploadURL R = Ok uploadData ->
    prop uploadData "url" = Ok url ->
    outcome (uploadVideoFile url (fileOf s)) R = Thrown error ->
    Run s R (opening
             ++ [ESet (SetUploadProgress 40); ERequest (PutFile url (fileOf s))]
             ++ failure_effects error)
| StopsAtCommit uploadData url filename error :
    outcome getUploadURL R = Ok uploadData ->
    prop uploadData "url" = Ok url ->
    outcome (uploadVideoFile url (fileOf s)) R = Ok tt ->
    prop uploadData "filename" = Ok filename ->
    outcome (createVideoMetadata (trim (uploadTitle s)) filename) R = Thrown error ->
    Run s R (opening
             ++ [ESet (SetUploadProgress 40); ERequest (PutFile url (fileOf s));
                 ESet (SetUploadProgress 80);
                 ERequest (PostVideo (trim (uploadTitle s)) filename)]
             ++ failure_effects error)
| Completes url filename :
    success_path s R = true ->
    acquired R = Some (url, filename) ->
    Run s R (success_effects s url filename
             ++ snd (loadVideos_resume (R GetReady) R)).

End HomeViews.

(** ** Player screen, the rest: reactions and what the overlay shows *)

Module PlayerViews.
Import VideoPlayer.
Local Open Scope Q_scope.

(** *** Like and dislike *)

Record Reactions := mkReactions {
  isLiked : bool;
  isDisliked : bool
}.

Definition handleLike (r : Reactions) : Reactions :=
  mkReactions (negb (isLiked r)) (if isDisliked r then false else isDisliked r).

Definition handleDislike (r : Reactions) : Reactions :=
  mkReactions (if isLiked r then false else isLiked r) (negb (isDisliked r)).

Inductive Press := Like | Dislike.

Definition react (r : Reactions) (p : Press) : Reactions :=
  match p with
  | Like => handleLike r
  | Dislike => handleDislike r
  end.

(** The first render: neither. *)
Definition neutral : Reactions := mkReactions false false.

(** *** The overlay *)

(** The two time labels around the seek track. *)
Definition positionLabel (s : PlaybackStatus) : jsstring :=
  if truthy_field (positionMillis s)
  then formatTime (number (positionMillis s))
  else str "0:00".

Definition durationLabel (s : PlaybackStatus) : jsstring :=
  if truthy_field (durationMillis s)
  then formatTime (number (durationMillis s))
  else str "0:00".

(** [progressAnimatedStyle]: the width of the fill, in percent. *)
Definition progressWidth (p : Player) : Q :=
  Animated.interpolate_clamp 0 1 0 100 (progressValue p).

(** [translateX] of the thumb. *)
Definition thumbOffset (p : Player) : Q := progressValue p * progressBarWidth p.

(** *** Vocabulary *)

(** A status the engine can report: when both position and duration are
    present, the position is within the clip. *)
Definition within_clip (s : PlaybackStatus) : Prop :=
  forall position duration,
    positionMillis s = Some position -> durationMillis s = Some duration ->
    0 <= position <= duration.

(** An event as the platform delivers it: statuses within the clip, layout
    widths not negative. *)
Definition well_formed (e : Event) : Prop :=
  match e with
  | StatusUpdate s => within_clip s
  | ProgressBarLayout width => 0 <= width
  | _ => True
  end.

(** The handler an event runs; while time passes, the only code that can
    run is the callback of the hide timer. *)
Definition handler (e : Event) : Handler :=
  match e with
  | ScreenTap => handleScreenTap
  | StatusUpdate s => onPlaybackStatusUpdate s
  | PlayPausePress => togglePlayPause
  | RatePress => changePlaybackRate
  | MutePress => toggleMute
  | SeekPress x => handleSeek x
  | ProgressBarLayout width => handleProgressBarLayout width
  | Elapse _ => hideCallback
  end.

Definition loadedUpdate (e : Event) : bool :=
  match e with
  | StatusUpdate s => isLoaded s
  | _ => false
  end.

Definition ratePresses (es : list Event) : nat :=
  length (filter (fun e => match e with RatePress => true | _ => false end) es).

End PlayerViews.

(** * Properties of the home screen *)

Module HomeScreenFacts.
Import HomeScreen.
Local Open Scope task_scope.

Arguments str : simpl never.
Arguments trim : simpl never.
Arguments toString : simpl never.

(** Unfolding a task down to the replies it branches on. *)
Ltac unfold_task :=
  cbv [submit handleUpload loadVideos loadVideos_begin loadVideos_resume
       handleDeleteVideo getUploadURL uploadVideoFile createVideoMetadata
       getReadyVideos getReadyVideos_resume getPlaybackURL deleteVideo
       await_request issue settle json set alert console_error emit lift
       bind ret throw try_catch finally run outcome].

(** C3. With no file selected, or a title that is empty once trimmed, the
    upload is refused at once: the only effect is the error alert, no
    request is sent and the screen state stays as it was. *)
Theorem handleUpload_rejects_invalid (s : HomeState) (R : Remote) :
  selected (selectedVideo s) = false \/ trim (uploadTitle s) = [] ->
  submit s R =
    (Ok tt, [EAlert (str "Error") (str "Please select a video and enter a title.")])
  /\ requests (run (submit s) R) = []
  /\ updates (run (submit s) R) = []
  /\ final_state s (run (submit s) R) = s.
Proof.
  intros H.
  assert (G : negb (selected (selectedVideo s))
              || negb (truthy_string (trim (uploadTitle s))) = true).
  { destruct H as [H | H]; rewrite H; simpl; auto using orb_true_r. }
  assert (E : submit s R =
    (Ok tt, [EAlert (str "Error") (str "Please select a video and enter a title.")])).
  { unfold submit, handleUpload. rewrite G. reflexivity. }
  unfold run, final_state. rewrite E. simpl. auto.
Qed.

Lemma handleUpload_rejects_invalid_witness :
  trim (uploadTitle blank_title) = []
  /\ requests (run (submit blank_title) healthy) = []
  /\ final_state blank_title (run (submit blank_title) healthy) = blank_title.
Proof.
  assert (H : trim (uploadTitle blank_title) = []) by reflexivity.
  split; [exact H|].
  destruct (handleUpload_rejects_invalid blank_title healthy (or_intror H))
    as [_ [A [_ B]]].
  split; [exact A | exact B].
Defined.

Lemma valid_guard (s : HomeState) :
  valid s ->
  negb (selected (selectedVideo s)) || negb (truthy_string (trim (uploadTitle s))) = false.
Proof.
  intros [H1 H2]. rewrite H1. simpl.
  destruct (trim (uploadTitle s)); [congruence | reflexivity].
Qed.

Lemma submit_success (s : HomeState) (R : Remote) :
  valid s -> success_path s R = true ->
  exists url filename,
    acquired R = Some (url, filename)
    /\ submit s R =
       (fst (loadVideos_resume (R GetReady) R),
        success_effects s url filename ++ snd (loadVideos_resume (R GetReady) R)).
Proof.
  intros V S. apply valid_guard in V.
  unfold success_path in S.
  destruct (acquired R) as [[url filename]|] eqn:A; [|discriminate].
  apply andb_true_iff in S. destruct S as [T C].
  exists url, filename. split; [reflexivity|].
  unfold acquired in A. unfold transferred in T. unfold committed in C.
  destruct (R PostUploadUrl) as [|r1] eqn:E1; [discriminate|].
  destruct (ok r1) eqn:O1; [|discriminate].
  destruct (body r1) as [data|] eqn:B1; [|discriminate].
  destruct (prop data "url") as [u|] eqn:P1; [|discriminate].
  destruct (prop data "filename") as [f|] eqn:P2; [|discriminate].
  injection A as -> ->.
  destruct (R (PutFile url (fileOf s))) as [|r2] eqn:E2; [discriminate|].
  destruct (R (PostVideo (trim (uploadTitle s)) filename)) as [|r3] eqn:E3; [discriminate|].
  unfold submit, handleUpload. rewrite V.
  unfold_task.
  rewrite E1, O1, B1. simpl. rewrite P1, E2, T. simpl. rewrite P2, E3, C. simpl.
  destruct (R GetReady) as [e|r4]; simpl.
  - reflexivity.
  - destruct (negb (ok r4)); simpl; [reflexivity|].
    destruct (body r4); reflexivity.
Qed.

Lemma progress_trace_app (l m : list Effect) :
  progress_trace (l ++ m) = progress_trace l ++ progress_trace m.
Proof.
  induction l as [|[[]| | |] l IH]; simpl; rewrite ?IH; reflexivity.
Qed.

Lemma updates_app (l m : list Effect) : updates (l ++ m) = updates l ++ updates m.
Proof.
  induction l as [|[] l IH]; simpl; rewrite ?IH; reflexivity.
Qed.

Lemma requests_app (l m : list Effect) : requests (l ++ m) = requests l ++ requests m.
Proof.
  induction l as [|[] l IH]; simpl; rewrite ?IH; reflexivity.
Qed.

Lemma final_state_app (s : HomeState) (l m : list Effect) :
  final_state s (l ++ m) = final_state (final_state s l) m.
Proof.
  unfold final_state. rewrite updates_app. apply fold_left_app.
Qed.

(** A settled refresh either stores the fetched list or reports the failure;
    in both cases it then lowers the two indicators. *)
Lemma loadVideos_resume_run (p : Reply) (R : Remote) :
  fst (loadVideos_resume p R) = Ok tt
  /\ exists pre,
       snd (loadVideos_resume p R) =
         pre ++ [ESet (SetLoading false); ESet (SetRefreshing false)]
       /\ match refreshed p with
          | Some v => pre = [ESet (SetVideos v)]
          | None => exists e,
              pre = [EConsoleError (str "Failed to load videos:") e;
                     EAlert (str "Error") (str "Failed to load videos. Please try again.")]
          end.
Proof.
  assert (F : forall e : Exn, exists pre,
     [EConsoleError (str "Failed to load videos:") e;
      EAlert (str "Error") (str "Failed to load videos. Please try again.");
      ESet (SetLoading false); ESet (SetRefreshing false)] =
     pre ++ [ESet (SetLoading false); ESet (SetRefreshing false)]
     /\ exists e', pre = [EConsoleError (str "Failed to load videos:") e';
                          EAlert (str "Error") (str "Failed to load videos. Please try again.")]).
  { intros e. eexists [_; _]. split; [reflexivity|]. eexists. reflexivity. }
  unfold refreshed. unfold_task.
  destruct p as [e|r]; simpl.
  - split; [reflexivity|]. apply F.
  - destruct (ok r); simpl.
    + destruct (body r) as [v|]; simpl.
      * split; [reflexivity|]. exists [ESet (SetVideos (opt_prop v "videos"))].
        split; reflexivity.
      * split; [reflexivity|]. apply F.
    + split; [reflexivity|]. apply F.
Qed.

Lemma loadVideos_resume_progress (p : Reply) (R : Remote) :
  progress_trace (snd (loadVideos_resume p R)) = [].
Proof.
  destruct (loadVideos_resume_run p R) as [_ [pre [-> H]]].
  rewrite progress_trace_app. simpl. rewrite app_nil_r.
  destruct (refreshed p); [subst; reflexivity | destruct H as [e ->]; reflexivity].
Qed.

Lemma loadVideos_resume_requests (p : Reply) (R : Remote) :
  requests (snd (loadVideos_resume p R)) = [].
Proof.
  destruct (loadVideos_resume_run p R) as [_ [pre [-> H]]].
  rewrite requests_app. simpl. rewrite app_nil_r.
  destruct (refreshed p); [subst; reflexivity | destruct H as [e ->]; reflexivity].
Qed.

(** A settled refresh leaves the upload session and the form alone. *)
Lemma loadVideos_resume_session (p : Reply) (R : Remote) (s : HomeState) :
  let s' := final_state s (snd (loadVideos_resume p R)) in
  uploadProgress s' = uploadProgress s /\ uploading s' = uploading s
  /\ uploadTitle s' = uploadTitle s /\ selectedVideo s' = selectedVideo s
  /\ showUploadModal s' = showUploadModal s.
Proof.
  destruct (loadVideos_resume_run p R) as [_ [pre [-> H]]].
  destruct (refreshed p); [subst | destruct H as [e ->]]; cbn; auto.
Qed.

(** C1, amended.  For a selected file and a title that is
    non-empty after trimming, when all three phases succeed the values
    written to the upload progress are 0, 20, 40, 80, 100 in that order
    (non-decreasing, 100 only after the commit request) followed by the
    reset to 0 of the [finally] block; the four requests go out in pipeline
    order, and the session ends idle: progress 0, not uploading, form
    cleared and modal closed. *)
Theorem upload_progress_on_success (s : HomeState) (R : Remote) :
  valid s -> success_path s R = true ->
  let l := run (submit s) R in
  progress_trace l = [0; 20; 40; 80; 100] ++ [0]
  /\ nondecreasing [0; 20; 40; 80; 100] = true
  /\ (exists url filename,
        acquired R = Some (url, filename)
        /\ requests l = [PostUploadUrl; PutFile url (fileOf s);
                         PostVideo (trim (uploadTitle s)) filename; GetReady]
        /\ exists rest, l = success_effects s url filename ++ rest)
  /\ uploadProgress (final_state s l) = 0
  /\ uploading (final_state s l) = false
  /\ uploadTitle (final_state s l) = []
  /\ selectedVideo (final_state s l) = None
  /\ showUploadModal (final_state s l) = false.
Proof.
  intros V S l.
  destruct (submit_success s R V S) as [url [filename [A E]]].
  assert (L : l = success_effects s url filename
                  ++ snd (loadVideos_resume (R GetReady) R)).
  { unfold l, run. rewrite E. reflexivity. }
  pose proof (loadVideos_resume_session (R GetReady) R
                (final_state s (success_effects s url filename))) as P.
  cbv zeta in P. rewrite <- final_state_app, <- L in P.
  destruct P as [P1 [P2 [P3 [P4 P5]]]].
  split; [|split; [reflexivity|split; [|repeat split]]].
  - rewrite L, progress_trace_app, loadVideos_resume_progress. reflexivity.
  - exists url, filename. split; [exact A|]. split.
    + rewrite L, requests_app, loadVideos_resume_requests. reflexivity.
    + eexists. exact L.
  - rewrite P1. reflexivity.
  - rewrite P2. reflexivity.
  - rewrite P3. reflexivity.
  - rewrite P4. reflexivity.
  - rewrite P5. reflexivity.
Qed.

(** C1, counterexample to the wording "ending with progress exactly 100":
    on a fully successful upload of the sample form the written values are
    0, 20, 40, 80, 100, 0, so the trace is not non-decreasing, is not the
    five-value list, and the final progress is 0. *)
Lemma progress_does_not_end_at_100 :
  valid demo /\ success_path demo healthy = true
  /\ progress_trace (run (submit demo) healthy) = [0; 20; 40; 80; 100; 0]
  /\ uploadProgress (final_state demo (run (submit demo) healthy)) = 0
  /\ ~ progress_ends_at_100 demo healthy.
Proof.
  split. { split; [reflexivity | vm_compute; discriminate]. }
  split. { vm_compute. reflexivity. }
  split. { vm_compute. reflexivity. }
  split. { vm_compute. reflexivity. }
  intros [H _]. vm_compute in H. discriminate.
Qed.

Lemma upload_progress_on_success_witness :
  valid demo /\ success_path demo healthy = true
  /\ progress_trace (run (submit demo) healthy) = [0; 20; 40; 80; 100] ++ [0].
Proof.
  assert (V : valid demo) by (split; [reflexivity | vm_compute; discriminate]).
  assert (S : success_path demo healthy = true) by (vm_compute; reflexivity).
  split; [exact V|]. split; [exact S|].
  exact (proj1 (upload_progress_on_success demo healthy V S)).
Defined.

Lemma prop_total (data : jsval) (k k' : string) (v : jsval) :
  prop data k = Ok v -> exists v', prop data k' = Ok v'.
Proof.
  destruct data; simpl; intros H; try discriminate; eexists; reflexivity.
Qed.

Lemma submit_stage (s : HomeState) (R : Remote) :
  Stage s R (requests (run (submit s) R)).
Proof.
  destruct (negb (selected (selectedVideo s))
            || negb (truthy_string (trim (uploadTitle s)))) eqn:G.
  { unfold run, submit, handleUpload. rewrite G. simpl. now apply Refused. }
  destruct (acquired R) as [[url filename]|] eqn:A.
  - destruct (transferred R url (fileOf s)) eqn:T.
    + destruct (committed R (trim (uploadTitle s)) filename) eqn:C.
      * assert (V : valid s).
        { apply orb_false_iff in G. destruct G as [G1 G2].
          apply negb_false_iff in G1, G2. split; [exact G1|].
          destruct (trim (uploadTitle s)); [discriminate G2 | discriminate]. }
        assert (S : success_path s R = true).
        { unfold success_path. rewrite A, T, C. reflexivity. }
        destruct (submit_success s R V S) as [u [f [A' E]]].
        rewrite A in A'. injection A' as <- <-.
        replace (requests (run (submit s) R)) with
          (requests (success_effects s url filename)
           ++ requests (snd (loadVideos_resume (R GetReady) R)))
          by (unfold run; rewrite E; cbn [snd]; now rewrite requests_app).
        rewrite loadVideos_resume_requests. simpl.
        now apply (Published s R url filename).
      * generalize (CommitFailed s R url filename A T C).
        unfold acquired in A. unfold transferred in T. unfold committed in C.
        destruct (R PostUploadUrl) as [|r1] eqn:E1; [discriminate|].
        destruct (ok r1) eqn:O1; [|discriminate].
        destruct (body r1) as [data|] eqn:B1; [|discriminate].
        destruct (prop data "url") as [u|] eqn:P1; [|discriminate].
        destruct (prop data "filename") as [f|] eqn:P2; [|discriminate].
        injection A as -> ->.
        destruct (R (PutFile url (fileOf s))) as [|r2] eqn:E2; [discriminate|].
        unfold run, submit, handleUpload. rewrite G. unfold_task.
        rewrite E1, O1, B1. simpl. rewrite P1, E2, T. simpl. rewrite P2.
        destruct (R (PostVideo (trim (uploadTitle s)) filename)) as [|r3] eqn:E3; simpl.
        -- auto.
        -- rewrite C. simpl. auto.
    + generalize (TransferFailed s R url filename A T).
      unfold acquired in A. unfold transferred in T.
      destruct (R PostUploadUrl) as [|r1] eqn:E1; [discriminate|].
      destruct (ok r1) eqn:O1; [|discriminate].
      destruct (body r1) as [data|] eqn:B1; [|discriminate].
      destruct (prop data "url") as [u|] eqn:P1; [|discriminate].
      destruct (prop data "filename") as [f|] eqn:P2; [|discriminate].
      injection A as -> ->.
      unfold run, submit, handleUpload. rewrite G. unfold_task.
      rewrite E1, O1, B1. simpl. rewrite P1.
      destruct (R (PutFile url (fileOf s))) as [|r2] eqn:E2; simpl.
      * auto.
      * rewrite T. simpl. auto.
  - generalize (AcquireFailed s R A).
    unfold acquired in A.
    unfold run, submit, handleUpload. rewrite G. unfold_task.
    destruct (R PostUploadUrl) as [|r1] eqn:E1; simpl; [auto|].
    destruct (ok r1) eqn:O1; simpl; [|auto].
    destruct (body r1) as [data|] eqn:B1; simpl; [|auto].
    destruct (prop data "url") as [u|] eqn:P1; simpl; [|auto].
    destruct (prop_total data "url" "filename" u P1) as [f P2].
    rewrite P2 in A. discriminate.
Qed.

(** C2. The requests of an upload are an initial segment of acquire,
    transfer, commit, refresh, in that order; the transfer is sent only once
    the acquire phase succeeded, the commit only once the transfer reported
    200; hence when the transfer fails (a 500, say, or no answer at all)
    [createVideoMetadata] sends nothing. *)
Theorem commit_only_after_transfer (s : HomeState) (R : Remote) :
  let qs := requests (run (submit s) R) in
  (exists url filename,
     prefix qs [PostUploadUrl; PutFile url (fileOf s);
                PostVideo (trim (uploadTitle s)) filename; GetReady])
  /\ (forall url f, In (PutFile url f) qs ->
        f = fileOf s /\ exists filename, acquired R = Some (url, filename))
  /\ (forall t filename, In (PostVideo t filename) qs ->
        t = trim (uploadTitle s)
        /\ exists url, acquired R = Some (url, filename)
                       /\ transferred R url (fileOf s) = true)
  /\ (transfer_fails s R -> forall t filename, ~ In (PostVideo t filename) qs).
Proof.
  intros qs.
  assert (P3 : forall t filename, In (PostVideo t filename) qs ->
        t = trim (uploadTitle s)
        /\ exists url, acquired R = Some (url, filename)
                       /\ transferred R url (fileOf s) = true).
  { intros t fn I. unfold qs in I.
    destruct (submit_stage s R); simpl in I;
      repeat (destruct I as [I|I]; try discriminate I); try contradiction;
      injection I as <- <-; eauto. }
  split; [|split; [|split; [exact P3|]]].
  - unfold qs. destruct (submit_stage s R).
    + exists VUndefined, VUndefined. eexists. reflexivity.
    + exists VUndefined, VUndefined. eexists. reflexivity.
    + exists url, VUndefined. eexists. reflexivity.
    + exists url, filename. eexists. reflexivity.
    + exists url, filename. exists []. reflexivity.
  - intros url f I. unfold qs in I.
    destruct (submit_stage s R); simpl in I;
      repeat (destruct I as [I|I]; try discriminate I); try contradiction;
      injection I as <- <-; eauto.
  - intros F t fn I. destruct (P3 t fn I) as [_ [url [_ T]]].
    rewrite (F url) in T. discriminate.
Qed.

Lemma commit_only_after_transfer_witness :
  transfer_fails demo transfer_500
  /\ requests (run (submit demo) transfer_500) =
       [PostUploadUrl; PutFile (VStr (str "https://bucket.example/a1b2.mp4")) (fileOf demo)]
  /\ forall t filename,
       ~ In (PostVideo t filename) (requests (run (submit demo) transfer_500)).
Proof.
  assert (F : transfer_fails demo transfer_500) by (intros url; reflexivity).
  split; [exact F|]. split; [vm_compute; reflexivity|].
  exact (proj2 (proj2 (proj2 (commit_only_after_transfer demo transfer_500))) F).
Defined.

Lemma loadVideos_run (showRefreshIndicator : bool) (R : Remote) :
  run (loadVideos showRefreshIndicator) R =
    [ESet (if showRefreshIndicator then SetRefreshing true else SetLoading true);
     ERequest GetReady]
    ++ snd (loadVideos_resume (R GetReady) R).
Proof.
  unfold run, loadVideos, loadVideos_begin, bind, issue, set, emit.
  destruct showRefreshIndicator; cbv beta iota;
    destruct (loadVideos_resume (R GetReady) R) as [r l]; reflexivity.
Qed.

Lemma In_updates_app (u : Update) (l m : list Effect) :
  In u (updates (l ++ m)) <-> In u (updates l) \/ In u (updates m).
Proof. rewrite updates_app. apply in_app_iff. Qed.

(** What a settled refresh writes to [videos]. *)
Lemma loadVideos_resume_videos (p : Reply) (R : Remote) (s : HomeState) :
  let l := snd (loadVideos_resume p R) in
  (forall v, In (SetVideos v) (updates l) -> refreshed p = Some v)
  /\ videos (final_state s l) = match refreshed p with Some v => v | None => videos s end
  /\ (refreshed p = None ->
      In (EAlert (str "Error") (str "Failed to load videos. Please try again.")) l).
Proof.
  destruct (loadVideos_resume_run p R) as [_ [pre [-> H]]].
  destruct (refreshed p) as [v|]; [subst | destruct H as [e ->]]; cbn.
  - split; [|split; [reflexivity | discriminate]].
    intros v' [I|[I|[I|[]]]]; congruence.
  - split; [|split; [reflexivity | auto]].
    intros v' [I|[I|[]]]; discriminate.
Qed.

Lemma handleDeleteVideo_run (videoId : jsstring) (R : Remote) :
  run (handleDeleteVideo videoId Delete) R =
    [EAlert (str "Delete Video") (str "Are you sure you want to delete this video?");
     ERequest (DeleteVideo videoId)]
    ++ if deleted (R (DeleteVideo videoId))
       then EAlert (str "Success") (str "Video deleted successfully!")
            :: run (loadVideos false) R
       else match R (DeleteVideo videoId) with
            | Rejected e =>
                [EConsoleError (str "Failed to delete video:") e;
                 EAlert (str "Error") (str "Failed to delete video.")]
            | Replied r =>
                [EConsoleError (str "Failed to delete video:")
                   (Error (str "Failed to delete video: " ++ statusText r));
                 EAlert (str "Error") (str "Failed to delete video.")]
            end.
Proof.
  rewrite loadVideos_run.
  destruct (loadVideos_resume_run (R GetReady) R) as [O _].
  unfold run, handleDeleteVideo, deleted, deleteVideo, loadVideos, loadVideos_begin,
    await_request, issue, settle, alert, console_error, set, emit, bind, ret, throw,
    try_catch.
  destruct (R (DeleteVideo videoId)) as [e|r]; simpl; [reflexivity|].
  destruct (ok r); simpl; [|reflexivity].
  destruct (loadVideos_resume (R GetReady) R) as [o l]. simpl in O. subst o.
  reflexivity.
Qed.

(** C9. A refresh that fails reports the failure and writes nothing to
    [videos]; a delete that fails reports the failure, sends nothing else
    and leaves the whole screen state as it was; [videos] is only ever
    written by a refresh that succeeded, with the list it fetched. *)
Theorem failures_keep_videos
    (s : HomeState) (R : Remote) (videoId : jsstring) (showRefreshIndicator : bool) :
  (refreshed (R GetReady) = None ->
     let l := run (loadVideos showRefreshIndicator) R in
     In (EAlert (str "Error") (str "Failed to load videos. Please try again.")) l
     /\ (forall v, ~ In (SetVideos v) (updates l))
     /\ videos (final_state s l) = videos s)
  /\ (deleted (R (DeleteVideo videoId)) = false ->
     let l := run (handleDeleteVideo videoId Delete) R in
     In (EAlert (str "Error") (str "Failed to delete video.")) l
     /\ requests l = [DeleteVideo videoId]
     /\ updates l = []
     /\ final_state s l = s)
  /\ (forall choice,
     refreshed (R GetReady) = None ->
     videos (final_state s (run (handleDeleteVideo videoId choice) R)) = videos s)
  /\ (forall v choice,
     In (SetVideos v) (updates (run (loadVideos showRefreshIndicator) R))
     \/ In (SetVideos v) (updates (run (handleDeleteVideo videoId choice) R)) ->
     refreshed (R GetReady) = Some v)
  /\ (forall v,
     refreshed (R GetReady) = Some v ->
     videos (final_state s (run (loadVideos showRefreshIndicator) R)) = v).
Proof.
  assert (LV : forall show v,
    In (SetVideos v) (updates (run (loadVideos show) R)) -> refreshed (R GetReady) = Some v).
  { intros show v I. rewrite loadVideos_run in I. apply In_updates_app in I.
    destruct I as [I|I].
    - destruct show; simpl in I; destruct I as [I|[]]; discriminate.
    - now apply (proj1 (loadVideos_resume_videos (R GetReady) R s)). }
  assert (LF : forall show s0,
    videos (final_state s0 (run (loadVideos show) R)) =
    match refreshed (R GetReady) with Some v => v | None => videos s0 end).
  { intros show s0. rewrite loadVideos_run, final_state_app.
    rewrite (proj1 (proj2 (loadVideos_resume_videos (R GetReady) R _))).
    destruct show; reflexivity. }
  split; [|split; [|split; [|split]]].
  - intros F l. split; [|split].
    + unfold l. rewrite loadVideos_run. apply in_or_app. right.
      now apply (proj2 (proj2 (loadVideos_resume_videos (R GetReady) R s))).
    + intros v I. apply LV in I. congruence.
    + unfold l. rewrite LF, F. reflexivity.
  - intros D l. unfold l. rewrite handleDeleteVideo_run, D.
    destruct (R (DeleteVideo videoId)); cbn; repeat split; auto 6.
  - intros [|] F.
    + reflexivity.
    + rewrite handleDeleteVideo_run.
      destruct (deleted (R (DeleteVideo videoId))).
      * change (videos (final_state s (run (loadVideos false) R)) = videos s).
        rewrite LF, F. reflexivity.
      * destruct (R (DeleteVideo videoId)); reflexivity.
  - intros v choice [I|I]; [now apply LV in I|].
    destruct choice; [simpl in I; contradiction|].
    rewrite handleDeleteVideo_run in I.
    destruct (deleted (R (DeleteVideo videoId))).
    + apply (LV false). exact I.
    + destruct (R (DeleteVideo videoId)); simpl in I; contradiction.
  - intros v F. rewrite LF, F. reflexivity.
Qed.

Lemma failures_keep_videos_witness :
  refreshed (down GetReady) = None
  /\ deleted (down (DeleteVideo (str "42"))) = false
  /\ videos (final_state demo (run (loadVideos true) down)) = VArr []
  /\ final_state demo (run (handleDeleteVideo (str "42") Delete) down) = demo.
Proof.
  assert (F : refreshed (down GetReady) = None) by reflexivity.
  assert (D : deleted (down (DeleteVideo (str "42"))) = false) by reflexivity.
  split; [exact F|]. split; [exact D|].
  destruct (failures_keep_videos demo down (str "42") true) as [A [B _]].
  split.
  - exact (proj2 (proj2 (A F))).
  - exact (proj2 (proj2 (proj2 (B D)))).
Defined.

(** C10, amended.  A [/play] request answered with a non-success status
    makes [getPlaybackURL] throw an error carrying the status text; answered
    with a success status and a JSON body other than [null], it returns the
    body's [url] when that is present and truthy and its [playback_url]
    otherwise.  A success answer whose body is [null], or is not JSON, makes
    it throw instead of falling back. *)
Theorem getPlaybackURL_either_field (id : jsstring) (R : Remote) (r : Response) :
  R (GetPlay id) = Replied r ->
  requests (run (getPlaybackURL id) R) = [GetPlay id]
  /\ (ok r = false ->
      outcome (getPlaybackURL id) R =
        Thrown (Error (str "Failed to get playback URL: " ++ statusText r)))
  /\ (forall data,
      ok r = true -> body r = Some data -> data <> VNull -> data <> VUndefined ->
      outcome (getPlaybackURL id) R =
        Ok (if truthy (opt_prop data "url")
            then opt_prop data "url"
            else opt_prop data "playback_url"))
  /\ (ok r = true -> body r = Some VNull ->
      outcome (getPlaybackURL id) R =
        Thrown (JsError "TypeError" (str "Cannot read property of null or undefined")))
  /\ (ok r = true -> body r = None ->
      outcome (getPlaybackURL id) R =
        Thrown (JsError "SyntaxError" (str "JSON Parse error"))).
Proof.
  intros E. unfold run, outcome, getPlaybackURL. unfold_task. rewrite E.
  split; [|split; [|split; [|split]]].
  - destruct (ok r); simpl; [|reflexivity].
    destruct (body r) as [data|]; simpl; [|reflexivity].
    destruct (prop data "url") as [url|]; simpl; [|reflexivity].
    destruct (truthy url); simpl; [reflexivity|].
    destruct (prop data "playback_url"); reflexivity.
  - intros ->. reflexivity.
  - intros data -> -> N U. simpl.
    destruct data; try congruence; simpl; try reflexivity.
    destruct (truthy (lookup "url" fields)); reflexivity.
  - intros -> ->. reflexivity.
  - intros -> ->. reflexivity.
Qed.

Lemma getPlaybackURL_either_field_witness :
  outcome (getPlaybackURL (str "42")) plays_by_url
    = Ok (VStr (str "https://cdn.example/42.m3u8"))
  /\ outcome (getPlaybackURL (str "42")) plays_by_playback_url
    = Ok (VStr (str "https://cdn.example/42.m3u8"))
  /\ outcome (getPlaybackURL (str "42")) down
    = Thrown (Error (str "Failed to get playback URL: " ++ str "Internal Server Error")).
Proof.
  split; [|split].
  - refine (proj1 (proj2 (proj2 (getPlaybackURL_either_field (str "42") plays_by_url
                                   _ eq_refl)))
              _ eq_refl eq_refl _ _); discriminate.
  - refine (proj1 (proj2 (proj2 (getPlaybackURL_either_field (str "42")
                                   plays_by_playback_url _ eq_refl)))
              _ eq_refl eq_refl _ _); discriminate.
  - exact (proj1 (proj2 (getPlaybackURL_either_field (str "42") down _ eq_refl)) eq_refl).
Defined.

(** C10, counterexample to "for every successful response": a 200 answer
    whose body is [null] makes the call throw a [TypeError], and one whose
    body is not JSON a [SyntaxError]; in neither case is a field returned. *)
Lemma getPlaybackURL_throws_on_null :
  (exists r, plays_null (GetPlay (str "42")) = Replied r /\ ok r = true)
  /\ outcome (getPlaybackURL (str "42")) plays_null
     = Thrown (JsError "TypeError" (str "Cannot read property of null or undefined"))
  /\ outcome (getPlaybackURL (str "42")) plays_garbled
     = Thrown (JsError "SyntaxError" (str "JSON Parse error"))
  /\ ~ returns_either_field (str "42") plays_null
  /\ ~ returns_either_field (str "42") plays_garbled.
Proof.
  split; [eexists; split; reflexivity|].
  split; [reflexivity|]. split; [reflexivity|]. split.
  - intros H. destruct (H _ eq_refl eq_refl) as [data [_ O]]. discriminate O.
  - intros H. destruct (H _ eq_refl eq_refl) as [data [B _]]. discriminate B.
Qed.

End HomeScreenFacts.

(** * Properties of the player screen *)

Module VideoPlayerFacts.
Import VideoPlayer.
Local Open Scope Q_scope.

Lemma truthy_number_false (q : Q) : truthy_number q = false <-> q == 0.
Proof.
  unfold truthy_number. rewrite negb_false_iff. apply Qeq_bool_iff.
Qed.

Lemma truthy_number_true (q : Q) : truthy_number q = true <-> ~ q == 0.
Proof.
  rewrite <- truthy_number_false. destruct (truthy_number q); split; congruence.
Qed.

Lemma Math_max_spec (a b : Q) :
  (a <= b /\ Math_max a b = b) \/ (b < a /\ Math_max a b = a).
Proof.
  unfold Math_max. destruct (Qle_bool a b) eqn:E.
  - left. split; [now apply Qle_bool_iff | reflexivity].
  - right. split; [|reflexivity]. apply Qnot_le_lt. intros H.
    apply Qle_bool_iff in H. congruence.
Qed.

Lemma Math_min_spec (a b : Q) :
  (a <= b /\ Math_min a b = a) \/ (b < a /\ Math_min a b = b).
Proof.
  unfold Math_min. destruct (Qle_bool a b) eqn:E.
  - left. split; [now apply Qle_bool_iff | reflexivity].
  - right. split; [|reflexivity]. apply Qnot_le_lt. intros H.
    apply Qle_bool_iff in H. congruence.
Qed.

Lemma seekRatio_clamp (x w : Q) : seekRatio x w == clamp (x / w) 0 1.
Proof.
  unfold seekRatio, clamp.
  destruct (Math_max_spec (x / w) 0) as [[H1 ->]|[H1 ->]];
    [destruct (Math_min_spec 0 1) as [[H2 ->]|[H2 ->]]
    |destruct (Math_min_spec (x / w) 1) as [[H2 ->]|[H2 ->]]];
    destruct (Qlt_le_dec (x / w) 0); try destruct (Qlt_le_dec 1 (x / w)); lra.
Qed.

Lemma seekRatio_bounds (x w : Q) : 0 <= seekRatio x w <= 1.
Proof.
  unfold seekRatio.
  destruct (Math_max_spec (x / w) 0) as [[H1 ->]|[H1 ->]];
    [destruct (Math_min_spec 0 1) as [[H2 ->]|[H2 ->]]
    |destruct (Math_min_spec (x / w) 1) as [[H2 ->]|[H2 ->]]]; lra.
Qed.

(** C4. A tap on the seek track does nothing when the measured width is 0,
    the media is not loaded, or the duration is missing or 0.  Otherwise it
    leaves the state alone and asks the engine (through the attached video
    reference) to jump to [ratio * durationMillis], where the ratio is
    [clamp(x / w, 0, 1)] and lies in the closed interval from 0 to 1; a tap
    at [x = 0] gives ratio 0 and a tap at [x = w] gives ratio 1. *)
Theorem handleSeek_clamped (engine : Engine) (p : Player) (touchX : Q) :
  let w := progressBarWidth p in
  (w == 0 \/ isLoaded (status p) = false
   \/ durationMillis (status p) = None
   \/ (exists d, durationMillis (status p) = Some d /\ d == 0) ->
   handleSeek touchX engine p = (p, []))
  /\ (forall d,
      ~ w == 0 -> isLoaded (status p) = true ->
      durationMillis (status p) = Some d -> ~ d == 0 ->
      handleSeek touchX engine p =
        (p, if videoRef p then [SetPositionAsync (seekRatio touchX w * d)] else [])
      /\ seekRatio touchX w == clamp (touchX / w) 0 1
      /\ 0 <= seekRatio touchX w <= 1
      /\ seekRatio 0 w == 0
      /\ seekRatio w w == 1).
Proof.
  intros w. split.
  - intros H. unfold handleSeek. fold w.
    destruct H as [H|[H|[H|[d [H Hd]]]]].
    + apply truthy_number_false in H. rewrite H. reflexivity.
    + rewrite H. simpl. rewrite orb_true_r. reflexivity.
    + rewrite H. simpl. rewrite orb_true_r. reflexivity.
    + rewrite H. simpl. apply truthy_number_false in Hd. rewrite Hd.
      simpl. rewrite orb_true_r. reflexivity.
  - intros d Hw Hl Hd Hd0.
    apply truthy_number_true in Hw, Hd0.
    split; [|split; [apply seekRatio_clamp|split; [apply seekRatio_bounds|]]].
    + unfold handleSeek, seekTo. fold w. rewrite Hw, Hl, Hd. simpl. rewrite Hd0.
      reflexivity.
    + apply truthy_number_true in Hw.
      assert (E0 : 0 / w == 0) by (field; exact Hw).
      assert (E1 : w / w == 1) by (field; exact Hw).
      pose proof (seekRatio_clamp 0 w) as C0. pose proof (seekRatio_clamp w w) as C1.
      unfold clamp in C0, C1.
      destruct (Qlt_le_dec (0 / w) 0), (Qlt_le_dec 1 (0 / w)),
        (Qlt_le_dec (w / w) 0), (Qlt_le_dec 1 (w / w)); split; lra.
Qed.

Lemma handleSeek_clamped_witness :
  handleSeek 0 obliging sample = (sample, [SetPositionAsync (seekRatio 0 200 * 150000)])
  /\ handleSeek 200 obliging sample = (sample, [SetPositionAsync (seekRatio 200 200 * 150000)])
  /\ seekRatio 0 200 == 0 /\ seekRatio 200 200 == 1
  /\ handleSeek 50 obliging (setProgressBarWidth 0 sample) = (setProgressBarWidth 0 sample, []).
Proof.
  assert (N200 : ~ 200 == 0) by discriminate.
  assert (N150 : ~ 150000 == 0) by discriminate.
  destruct (proj2 (handleSeek_clamped obliging sample 0) 150000 N200 eq_refl eq_refl N150)
    as [A [_ [_ [B C]]]].
  destruct (proj2 (handleSeek_clamped obliging sample 200) 150000 N200 eq_refl eq_refl N150)
    as [A' _].
  split; [exact A|]. split; [exact A'|]. split; [exact B|]. split; [exact C|].
  apply (proj1 (handleSeek_clamped obliging (setProgressBarWidth 0 sample) 50)).
  left. reflexivity.
Defined.

Lemma indexOf_from_compat (l : list Q) (i : Z) (x y : Q) :
  x == y -> indexOf_from i l x = indexOf_from i l y.
Proof.
  intros E. revert i. induction l as [|a l IH]; intros i; simpl; [reflexivity|].
  assert (B : Qeq_bool a x = Qeq_bool a y).
  { destruct (Qeq_bool a x) eqn:X, (Qeq_bool a y) eqn:Y; try reflexivity.
    - apply Qeq_bool_iff in X. rewrite E in X. apply Qeq_bool_iff in X. congruence.
    - apply Qeq_bool_iff in Y. rewrite <- E in Y. apply Qeq_bool_iff in Y. congruence. }
  rewrite B, IH. reflexivity.
Qed.

Lemma indexOf_from_range (l : list Q) (i : Z) (x : Q) :
  (0 <= i)%Z ->
  (indexOf_from i l x = -1 \/ i <= indexOf_from i l x < i + Z.of_nat (length l))%Z.
Proof.
  revert i. induction l as [|a l IH]; intros i Hi; simpl length; simpl indexOf_from.
  - left. reflexivity.
  - destruct (Qeq_bool a x); [right; lia|].
    destruct (IH (i + 1)%Z ltac:(lia)) as [H|H]; [left; exact H | right; lia].
Qed.

(** The index read by [nextRate] always lies inside [rates]. *)
Lemma nextIndex_in_range (r : Q) : (0 <= nextIndex r < 6)%Z.
Proof.
  unfold nextIndex, indexOf. change (Z.of_nat (length rates)) with 6%Z.
  destruct (indexOf_from_range rates 0 r ltac:(lia)) as [H|H].
  - rewrite H. change (Z.rem (-1 + 1) 6) with 0%Z. lia.
  - change (Z.of_nat (length rates)) with 6%Z in H.
    rewrite Z.rem_mod_nonneg by lia. apply Z.mod_pos_bound. lia.
Qed.

(** C5. Cycling maps each of the six rates to the next entry of the list,
    the last one back to the first: 2.0 to 0.5, 1.0 to 1.25.  On the list it
    is the rotation by one place, hence a permutation, and six applications
    give the starting rate back.  The handler stores the chosen rate
    whatever the engine answers: the rate of the state it leaves, and of the
    screen after the press, is the next rate.  It tells the engine only when
    the video reference is attached and the media loaded. *)
Theorem changePlaybackRate_cycles (engine : Engine) (p : Player) :
  (forall i, (i < 6)%nat ->
     nextRate (nth i rates 0) = nth ((i + 1) mod 6) rates 0)
  /\ nextRate 2.0 = 0.5
  /\ nextRate 1.0 = 1.25
  /\ map nextRate rates = [0.75; 1.0; 1.25; 1.5; 2.0; 0.5]
  /\ Permutation rates (map nextRate rates)
  /\ (forall r, In r rates -> Nat.iter 6 nextRate r = r)
  /\ (forall r r', r == r' -> nextRate r = nextRate r')
  /\ In (nextRate (playbackRate p)) rates
  /\ fst (changePlaybackRate engine p) = setPlaybackRate (nextRate (playbackRate p)) p
  /\ snd (changePlaybackRate engine p) =
       (if videoRef p && isLoaded (status p)
        then [SetRateAsync (nextRate (playbackRate p)) true]
        else [])
  /\ playbackRate (fst (changePlaybackRate engine p)) = nextRate (playbackRate p)
  /\ (forall w,
      playbackRate (player (step engine w RatePress)) = nextRate (playbackRate (player w))).
Proof.
  split; [|split; [|split; [|split; [|split; [|split; [|split; [|split; [|split;
    [|split; [|split]]]]]]]]]].
  - intros i Hi. do 6 (destruct i as [|i]; [reflexivity|]). lia.
  - reflexivity.
  - reflexivity.
  - reflexivity.
  - change (map nextRate rates) with (tl rates ++ [hd 0 rates]).
    change rates with ([hd 0 rates] ++ tl rates) at 1.
    apply Permutation_app_comm.
  - intros r H. simpl in H.
    repeat (destruct H as [<-|H]; [reflexivity|]). contradiction.
  - intros r r' E. unfold nextRate, nextIndex, indexOf.
    rewrite (indexOf_from_compat rates 0 r r' E). reflexivity.
  - unfold nextRate. pose proof (nextIndex_in_range (playbackRate p)) as H.
    apply nth_In. change (length rates) with 6%nat. lia.
  - unfold changePlaybackRate. destruct (videoRef p && isLoaded (status p)); reflexivity.
  - unfold changePlaybackRate. destruct (videoRef p && isLoaded (status p)); reflexivity.
  - unfold changePlaybackRate. destruct (videoRef p && isLoaded (status p)); reflexivity.
  - intros w. cbn [step]. unfold dispatch, commit.
    assert (H : forall old new w0, player (hideEffect old new w0) = player w0).
    { intros old new w0. unfold hideEffect, clearTimeout, setTimeout.
      repeat match goal with
             | |- context [if ?b then _ else _] => destruct b
             | |- context [match ?o with Some _ => _ | None => _ end] => destruct o
             end; reflexivity. }
    assert (G : forall old new, playbackRate (progressEffect old new) = playbackRate new).
    { intros old new. unfold progressEffect, updateProgress.
      repeat match goal with
             | |- context [if ?b then _ else _] => destruct b
             end; reflexivity. }
    destruct (changePlaybackRate engine (player w)) as [p' cs] eqn:E.
    cbn [player with_player]. rewrite H, G. cbn [player with_player].
    unfold changePlaybackRate in E.
    destruct (videoRef (player w) && isLoaded (status (player w)));
      injection E as <- _; reflexivity.
Qed.

Lemma two_digits_below_60 (n : nat) :
  (n < 60)%nat -> padStart 2 48%N (toString (Z.of_nat n)) = two_digits (Z.of_nat n).
Proof.
  intros H. do 60 (destruct n as [|n]; [reflexivity|]). lia.
Qed.

(** C7. For a non-negative number of milliseconds, [formatTime] prints the
    whole minutes in decimal (however many: there is no hour component), a
    colon, and the seconds left over, between 0 and 59, as exactly two
    digits. *)
Theorem formatTime_minutes_seconds (millis : Q) :
  0 <= millis ->
  let totalSeconds := Qfloor (millis / 1000) in
  let minutes := (totalSeconds / 60)%Z in
  let seconds := (totalSeconds mod 60)%Z in
  (0 <= minutes)%Z /\ (0 <= seconds < 60)%Z
  /\ (totalSeconds = 60 * minutes + seconds)%Z
  /\ formatTime millis = toString minutes ++ str ":" ++ two_digits seconds.
Proof.
  intros H totalSeconds minutes seconds.
  assert (T : (0 <= totalSeconds)%Z).
  { change 0%Z with (Qfloor 0). apply Qfloor_resp_le.
    apply Qle_shift_div_l; [reflexivity | lra]. }
  assert (S : (0 <= seconds < 60)%Z) by (apply Z.mod_pos_bound; lia).
  split; [apply Z.div_pos; lia|]. split; [exact S|].
  split; [apply Z.div_mod; lia|].
  unfold formatTime, Math_floor. fold totalSeconds. fold minutes.
  rewrite Z.rem_mod_nonneg by lia. fold seconds.
  rewrite <- (Z2Nat.id seconds) by lia.
  rewrite two_digits_below_60 by lia. reflexivity.
Qed.

Lemma formatTime_minutes_seconds_witness :
  formatTime 75000 = str "1:15"
  /\ formatTime 150000 = str "2:30"
  /\ formatTime 3600000 = str "60:00"
  /\ formatTime 0 = str "0:00".
Proof.
  assert (P : forall q : Q, 0 <= q ->
     formatTime q = toString (Qfloor (q / 1000) / 60)
                    ++ str ":" ++ two_digits (Qfloor (q / 1000) mod 60)).
  { intros q H. exact (proj2 (proj2 (proj2 (formatTime_minutes_seconds q H)))). }
  split; [|split; [|split]].
  - rewrite (P 75000) by discriminate. reflexivity.
  - rewrite (P 150000) by discriminate. reflexivity.
  - rewrite (P 3600000) by discriminate. reflexivity.
  - rewrite (P 0) by discriminate. reflexivity.
Defined.

(** *** The hide timer *)

Local Open Scope nat_scope.

Lemma armed_snoc (l : list TimerEvent) (e : TimerEvent) :
  armed (l ++ [e]) = armed l ++ match e with Armed id _ => [id] | _ => [] end.
Proof. unfold armed. rewrite flat_map_app. simpl. now rewrite app_nil_r. Qed.
Lemma cleared_snoc (l : list TimerEvent) (e : TimerEvent) :
  cleared (l ++ [e]) = cleared l ++ match e with Cleared id => [id] | _ => [] end.
Proof. unfold cleared. rewrite flat_map_app. simpl. now rewrite app_nil_r. Qed.
Lemma fired_snoc (l : list TimerEvent) (e : TimerEvent) :
  fired (l ++ [e]) = fired l ++ match e with Fired id => [id] | _ => [] end.
Proof. unfold fired. rewrite flat_map_app. simpl. now rewrite app_nil_r. Qed.

Lemma NoDup_snoc (l : list nat) (a : nat) : NoDup l -> ~ In a l -> NoDup (l ++ [a]).
Proof.
  intros N I. apply NoDup_app; [exact N | repeat constructor; simpl; tauto|].
  intros x Hx [<-|[]]. contradiction.
Qed.

Lemma In_snoc (l : list nat) (a x : nat) : In x (l ++ [a]) <-> In x l \/ x = a.
Proof.
  rewrite in_app_iff. simpl. intuition.
Qed.

Ltac fields :=
  cbn [player clock timers next_id hide_timeout commands timer_log with_player] in *.

Ltac log_simpl :=
  rewrite ?armed_snoc, ?cleared_snoc, ?fired_snoc in *; cbv iota in *;
  rewrite ?app_nil_r, ?length_app in *; cbn [length] in *.

Lemma mounted_inv : TimerInv mounted.
Proof.
  constructor; cbn; try tauto; try constructor.
Qed.

Lemma clearTimeout_nothing (timeout : option nat) (w : World) :
  timers w = [] -> clearTimeout timeout w = w.
Proof.
  intros E. unfold clearTimeout. rewrite E. destruct timeout; reflexivity.
Qed.

Lemma clearTimeout_held (t : Timer) (w : World) :
  timers w = [t] ->
  clearTimeout (Some (timer_id t)) w =
    mkWorld (player w) (clock w) [] (next_id w) (hide_timeout w) (commands w)
      (timer_log w ++ [Cleared (timer_id t)]).
Proof.
  intros E. unfold clearTimeout, pending, remove_timer. rewrite E. simpl.
  rewrite Nat.eqb_refl. reflexivity.
Qed.

(** Arming on an empty pending set. *)
Lemma arm_inv (w : World) :
  timers w = [] -> visible (player w) = true ->
  (forall id, In id (armed (timer_log w)) -> id < next_id w) ->
  NoDup (armed (timer_log w)) ->
  (forall id, In id (fired (timer_log w)) ->
     In id (armed (timer_log w)) /\ ~ In id (cleared (timer_log w))) ->
  (forall id, In id (cleared (timer_log w)) -> In id (armed (timer_log w))) ->
  NoDup (fired (timer_log w)) ->
  length (armed (timer_log w)) =
    length (cleared (timer_log w)) + length (fired (timer_log w)) ->
  TimerInv (setTimeout 3000 w).
Proof.
  intros E V F A1 Fi Cl F1 C. unfold setTimeout. rewrite E.
  constructor; fields; log_simpl.
  - cbn [app fires_at timer_id].
    split; [exact V|]. split; [reflexivity|]. split; [lia|].
    split; [apply In_snoc; auto|]. split.
    + intros I. apply Cl, F in I. lia.
    + intros I. apply Fi in I. destruct I as [I _]. apply F in I. lia.
  - intros id I. apply In_snoc in I. destruct I as [I| ->]; [apply F in I|]; lia.
  - apply NoDup_snoc; [exact A1|]. intros I. apply F in I. lia.
  - intros id I. destruct (Fi id I) as [I1 I2]. split; [apply In_snoc; auto | exact I2].
  - intros id I. apply In_snoc. left. auto.
  - exact F1.
  - cbn [app length]. lia.
Qed.

(** Whatever a handler did to the state, committing it keeps the
    discipline: when a dependency changed, the pending timer (if any) is
    cleared before a new one is armed. *)
Lemma hideEffect_inv (w : World) (new : Player) :
  TimerInv w -> TimerInv (hideEffect (player w) new (with_player new w)).
Proof.
  intros [P F A1 Fi Cl F1 C].
  unfold hideEffect. fields.
  destruct (Bool.eqb (showControls (player w)) (showControls new)
            && Bool.eqb (isLoading (player w)) (isLoading new)) eqn:D.
  - apply andb_true_iff in D. destruct D as [D1 D2].
    apply eqb_prop in D1, D2.
    assert (V : visible new = visible (player w)) by (unfold visible; congruence).
    constructor; fields; auto. rewrite V. exact P.
  - fold (visible new).
    destruct (timers w) as [|t [|t' ts]] eqn:E; [| |contradiction].
    + (* nothing pending: the clean-up finds nothing to clear *)
      rewrite clearTimeout_nothing by exact E.
      destruct (visible new) eqn:V.
      * apply arm_inv; fields; auto. cbn [length] in C. lia.
      * constructor; fields; rewrite ?E; auto.
    + (* one pending: it is the one the clean-up holds, and it is cleared *)
      destruct P as [V [H [B [I1 [I2 I3]]]]].
      rewrite H, (clearTimeout_held t) by exact E. fields.
      cbn [length] in C.
      assert (Fi' : forall id, In id (fired (timer_log w)) ->
                 In id (armed (timer_log w))
                 /\ ~ In id (cleared (timer_log w ++ [Cleared (timer_id t)]))).
      { intros id I. destruct (Fi id I) as [J1 J2]. split; [exact J1|].
        log_simpl. intros J. apply In_snoc in J. destruct J as [J| ->]; contradiction. }
      assert (Cl' : forall id, In id (cleared (timer_log w ++ [Cleared (timer_id t)])) ->
                 In id (armed (timer_log w))).
      { intros id I. log_simpl. apply In_snoc in I. destruct I as [I| ->]; auto. }
      destruct (visible new) eqn:V'.
      * apply arm_inv; fields; log_simpl; auto. lia.
      * constructor; fields; log_simpl; auto. lia.
Qed.

Lemma hideEffect_player (old new : Player) (w : World) :
  player (hideEffect old new w) = player w.
Proof.
  unfold hideEffect, clearTimeout, setTimeout.
  repeat match goal with
         | |- context [if ?b then _ else _] => destruct b
         | |- context [match ?o with Some _ => _ | None => _ end] => destruct o
         end; reflexivity.
Qed.

Lemma progressEffect_visible (old new : Player) :
  visible (progressEffect old new) = visible new.
Proof.
  unfold progressEffect, updateProgress.
  repeat match goal with
         | |- context [if ?b then _ else _] => destruct b
         end; reflexivity.
Qed.

Lemma with_player_inv (p : Player) (w : World) :
  TimerInv w -> visible p = visible (player w) -> TimerInv (with_player p w).
Proof.
  intros [P F A1 Fi Cl F1 C] V. constructor; fields; auto. rewrite V. exact P.
Qed.

Lemma commit_inv (new : Player) (w : World) :
  TimerInv w -> TimerInv (commit (player w) new w).
Proof.
  intros I. unfold commit.
  apply with_player_inv; [now apply hideEffect_inv|].
  apply progressEffect_visible.
Qed.

Lemma dispatch_inv (h : Handler) (engine : Engine) (w : World) :
  TimerInv w -> TimerInv (dispatch h engine w).
Proof.
  intros I. unfold dispatch. destruct (h engine (player w)) as [p' cs].
  destruct (commit_inv p' w I) as [P F A1 Fi Cl F1 C].
  constructor; fields; auto.
Qed.

(** A millisecond passing keeps the discipline: the pending timer either
    stays ahead of the clock or fires, once, and hides the controls. *)
Lemma tick_inv (engine : Engine) (w : World) : TimerInv w -> TimerInv (tick engine w).
Proof.
  intros [P F A1 Fi Cl F1 C]. unfold tick. fields.
  destruct (timers w) as [|t [|t' ts]] eqn:E; [| |contradiction].
  - cbn [filter fire_due]. constructor; fields; rewrite ?E; auto.
  - destruct P as [V [H [B [I1 [I2 I3]]]]]. cbn [filter].
    destruct (Nat.leb (fires_at t) (S (clock w))) eqn:L.
    + cbn [fire_due]. fields. unfold pending. cbn [existsb].
      rewrite Nat.eqb_refl. cbn [orb].
      unfold fire, dispatch, hideCallback, commit, hideEffect. fields.
      unfold remove_timer. cbn [filter]. rewrite Nat.eqb_refl. cbn [negb].
      unfold visible in V. apply andb_true_iff in V. destruct V as [V1 V2].
      cbn [showControls isLoading setControlsOpacity setShowControls].
      rewrite V1. cbn [Bool.eqb andb].
      rewrite clearTimeout_nothing by reflexivity. fields.
      constructor; fields; log_simpl.
      * rewrite progressEffect_visible. reflexivity.
      * exact F.
      * exact A1.
      * intros id J. apply In_snoc in J. destruct J as [J| ->]; auto.
      * exact Cl.
      * apply NoDup_snoc; assumption.
      * cbn [length] in *. lia.
    + cbn [fire_due]. apply Nat.leb_gt in L.
      constructor; fields; rewrite ?E; auto.
      repeat split; auto; lia.
Qed.

Lemma step_inv (engine : Engine) (w : World) (e : Event) :
  TimerInv w -> TimerInv (step engine w e).
Proof.
  intros I. destruct e; cbn [step]; try now apply dispatch_inv.
  induction millis as [|n IH]; [exact I|]. cbn [Nat.iter]. now apply tick_inv.
Qed.

Lemma run_inv (engine : Engine) (es : list Event) (w : World) :
  TimerInv w -> TimerInv (fold_left (step engine) es w).
Proof.
  revert w. induction es as [|e es IH]; intros w I; [exact I|].
  cbn [fold_left]. apply IH. now apply step_inv.
Qed.

(** What committing a state change does to the pending timer: armed 3000 ms
    ahead when the controls become visible on a loaded player, cleared when
    they stop being so, untouched otherwise. *)
Lemma hideEffect_timers (w : World) (new : Player) :
  TimerInv w ->
  let w' := hideEffect (player w) new (with_player new w) in
  (visible (player w) = false -> visible new = true ->
     timers w' = [mkTimer (next_id w) (clock w + 3000)]
     /\ timer_log w' = timer_log w ++ [Armed (next_id w) (clock w + 3000)])
  /\ (visible (player w) = true -> visible new = false ->
     exists t, timers w = [t] /\ timers w' = []
               /\ timer_log w' = timer_log w ++ [Cleared (timer_id t)])
  /\ (visible (player w) = visible new ->
     timers w' = timers w /\ timer_log w' = timer_log w).
Proof.
  intros [P _ _ _ _ _ _]. unfold hideEffect. fields.
  destruct (Bool.eqb (showControls (player w)) (showControls new)
            && Bool.eqb (isLoading (player w)) (isLoading new)) eqn:D.
  - apply andb_true_iff in D. destruct D as [D1 D2]. apply eqb_prop in D1, D2.
    assert (V : visible new = visible (player w)) by (unfold visible; congruence).
    cbv zeta. fields. rewrite V.
    split; [congruence|]. split; [congruence|]. auto.
  - fold (visible new).
    destruct (timers w) as [|t [|t' ts]] eqn:E; [| |contradiction].
    + rewrite clearTimeout_nothing by exact E. rewrite P.
      destruct (visible new); cbv zeta; unfold setTimeout; fields; rewrite ?E.
      * split; [auto|]. split; [discriminate|]. discriminate.
      * split; [discriminate|]. split; [discriminate|]. auto.
    + destruct P as [V [H _]].
      rewrite H, (clearTimeout_held t) by exact E. rewrite V.
      destruct (visible new) eqn:V'; cbv zeta.
      * exfalso. unfold visible in V, V'.
        apply andb_true_iff in V, V'. destruct V as [V1 V2], V' as [V3 V4].
        apply negb_true_iff in V2, V4. rewrite V1, V2, V3, V4 in D. discriminate.
      * fields. split; [discriminate|]. split; [|discriminate].
        intros _ _. exists t. auto.
Qed.

Lemma dispatch_fields (h : Handler) (engine : Engine) (w : World) :
  let new := fst (h engine (player w)) in
  let w1 := hideEffect (player w) new (with_player new w) in
  let w' := dispatch h engine w in
  timers w' = timers w1 /\ timer_log w' = timer_log w1
  /\ visible (player w') = visible new.
Proof.
  unfold dispatch, commit. destruct (h engine (player w)) as [p' cs].
  cbv zeta. fields. cbn [fst]. rewrite progressEffect_visible, hideEffect_player.
  auto.
Qed.

(** While the pending timer is not due, a millisecond only moves the clock. *)
Lemma tick_waits (engine : Engine) (w : World) (t : Timer) :
  timers w = [t] -> S (clock w) < fires_at t ->
  tick engine w =
    mkWorld (player w) (S (clock w)) (timers w) (next_id w) (hide_timeout w)
      (commands w) (timer_log w).
Proof.
  intros E L. unfold tick. fields. rewrite E. cbn [filter].
  apply Nat.leb_gt in L. rewrite L. reflexivity.
Qed.

Lemma elapse_waits (engine : Engine) (w : World) (t : Timer) (k : nat) :
  timers w = [t] -> clock w + k < fires_at t ->
  Nat.iter k (tick engine) w =
    mkWorld (player w) (clock w + k) (timers w) (next_id w) (hide_timeout w)
      (commands w) (timer_log w).
Proof.
  intros E. induction k as [|k IH]; intros L.
  - cbn [Nat.iter]. rewrite Nat.add_0_r. destruct w; reflexivity.
  - change (Nat.iter (S k) (tick engine) w)
      with (tick engine (Nat.iter k (tick engine) w)).
    rewrite IH by lia.
    rewrite (tick_waits engine _ t); fields; [|exact E|lia].
    rewrite Nat.add_succ_r. reflexivity.
Qed.

(** The millisecond at which the pending timer is due: it fires and the
    controls are hidden. *)
Lemma tick_fires (engine : Engine) (w : World) (t : Timer) :
  timers w = [t] -> hide_timeout w = Some (timer_id t) ->
  showControls (player w) = true -> S (clock w) = fires_at t ->
  let w' := tick engine w in
  timers w' = [] /\ showControls (player w') = false
  /\ timer_log w' = timer_log w ++ [Fired (timer_id t)].
Proof.
  intros E H V L. unfold tick. fields. rewrite E. cbn [filter].
  rewrite <- L, Nat.leb_refl. cbn [fire_due]. fields. rewrite ?E.
  unfold pending. cbn [existsb]. rewrite Nat.eqb_refl. cbn [orb].
  unfold fire, dispatch, hideCallback, commit, hideEffect. fields. rewrite ?E, ?H.
  unfold remove_timer. cbn [filter]. rewrite Nat.eqb_refl. cbn [negb].
  cbn [showControls isLoading setControlsOpacity setShowControls].
  rewrite V. cbn [Bool.eqb andb].
  rewrite clearTimeout_nothing by reflexivity. fields.
  split; [reflexivity|]. split; [|reflexivity].
  unfold progressEffect, updateProgress.
  repeat match goal with
         | |- context [if ?b then _ else _] => destruct b
         end; reflexivity.
Qed.

(** C6. In every state the player can reach there is at most one pending
    hide timer; one is pending exactly while the controls are visible on a
    loaded player, and it is due within 3000 ms.  Any handler that makes the
    controls visible on a loaded player arms a fresh timer exactly 3000 ms
    ahead, on an empty pending set; any handler that ends that condition
    clears the pending timer.  Timers are armed under distinct identifiers,
    a timer fires at most once and never after it was cleared, and every
    armed timer is cleared, fired or the one still pending.  Left alone, the
    pending timer fires when it is due and hides the controls.  Arming twice
    within 150 ms therefore yields a single hide: the first timer is
    cleared, only the second fires. *)
Theorem hide_timer_single_shot (engine : Engine) (es : list Event) :
  let w := play engine es in
  (visible (player w) = true ->
     exists t, timers w = [t] /\ hide_timeout w = Some (timer_id t)
               /\ clock w < fires_at t <= clock w + 3000)
  /\ (visible (player w) = false -> timers w = [])
  /\ length (timers w) <= 1
  /\ (forall (h : Handler),
      let w' := dispatch h engine w in
      (visible (player w) = false -> visible (player w') = true ->
         timers w' = [mkTimer (next_id w) (clock w + 3000)]
         /\ timer_log w' = timer_log w ++ [Armed (next_id w) (clock w + 3000)])
      /\ (visible (player w) = true -> visible (player w') = false ->
         exists t, timers w = [t] /\ timers w' = []
                   /\ timer_log w' = timer_log w ++ [Cleared (timer_id t)])
      /\ (visible (player w) = visible (player w') ->
         timers w' = timers w /\ timer_log w' = timer_log w))
  /\ (forall t, timers w = [t] ->
      let w' := step engine w (Elapse (fires_at t - clock w)) in
      timers w' = [] /\ showControls (player w') = false
      /\ timer_log w' = timer_log w ++ [Fired (timer_id t)])
  /\ NoDup (armed (timer_log w))
  /\ NoDup (fired (timer_log w))
  /\ (forall id, In id (fired (timer_log w)) -> In id (armed (timer_log w)))
  /\ (forall id, In id (cleared (timer_log w)) -> ~ In id (fired (timer_log w)))
  /\ length (armed (timer_log w)) =
       length (cleared (timer_log w)) + length (fired (timer_log w)) + length (timers w)
  /\ timer_log (play engine double_arm) =
       [Armed 0 3000; Cleared 0; Armed 1 3150; Fired 1]
  /\ showControls (player (play engine double_arm)) = false.
Proof.
  intros w.
  assert (I : TimerInv w) by (apply run_inv, mounted_inv).
  pose proof I as [P F A1 Fi Cl F1 C].
  split; [|split; [|split; [|split; [|split; [|split;
    [|split; [|split; [|split; [|split; [|split]]]]]]]]]].
  - intros V. destruct (timers w) as [|t [|t' ts]]; [congruence| |contradiction].
    exists t. tauto.
  - intros V. destruct (timers w) as [|t [|t' ts]]; [reflexivity| |contradiction].
    destruct P as [V' _]. congruence.
  - destruct (timers w) as [|t [|t' ts]]; [cbn; lia|cbn; lia|contradiction].
  - intros h.
    destruct (dispatch_fields h engine w) as [E1 [E2 E3]].
    cbv zeta. rewrite E1, E2, E3. now apply hideEffect_timers.
  - intros t E. rewrite E in P. destruct P as [V [H [[B1 B2] _]]].
    cbn [step].
    replace (fires_at t - clock w) with (S (fires_at t - clock w - 1)) by lia.
    change (Nat.iter (S ?k) (tick engine) w)
      with (tick engine (Nat.iter (fires_at t - clock w - 1) (tick engine) w)).
    rewrite (elapse_waits engine w t) by (auto; lia).
    apply andb_true_iff in V. destruct V as [V _].
    match goal with
    | |- context [tick engine ?w0] =>
        destruct (tick_fires engine w0 t) as [T1 [T2 T3]]; fields; auto; try lia
    end.
  - exact A1.
  - exact F1.
  - intros id J. now apply Fi.
  - intros id J K. apply Fi in K. tauto.
  - exact C.
  - vm_compute. reflexivity.
  - vm_compute. reflexivity.
Qed.

(** *** The progress ratio *)

Local Open Scope Q_scope.

(** Where both fields are truthy, a status update recomputes the ratio. *)
Lemma progress_recomputed (old : Player) (s : PlaybackStatus) (position duration : Q) :
  positionMillis s = Some position -> durationMillis s = Some duration ->
  ~ position == 0 -> ~ duration == 0 ->
  progressValue (updateProgress (setStatus s old)) = position / duration.
Proof.
  intros P D NP ND. apply truthy_number_true in NP, ND.
  unfold updateProgress. simpl. rewrite P, D. simpl. rewrite NP, ND. reflexivity.
Qed.

(** A status update reporting position 0 never touches the ratio. *)
Lemma progress_kept_at_position_zero
    (engine : Engine) (w : World) (s : PlaybackStatus) (position : Q) :
  positionMillis s = Some position -> position == 0 ->
  progressValue (player (dispatch (onPlaybackStatusUpdate s) engine w))
    = progressValue (player w).
Proof.
  intros P Z. apply truthy_number_false in Z.
  unfold dispatch, onPlaybackStatusUpdate.
  destruct (isLoaded s);
    cbn [player commit with_player]; rewrite hideEffect_player; cbn [player with_player];
    unfold progressEffect, updateProgress;
    cbn [status setStatus setIsPlaying setIsLoading];
    rewrite P; cbn [truthy_field]; rewrite Z, andb_false_r;
    match goal with
    | |- context [if ?b then _ else _] => destruct b
    end; reflexivity.
Qed.

(** C8, the defect.  At 75000 ms of 150000 ms the ratio becomes
    one half; the next update, reporting position 0 (after a seek to the
    start), leaves the ratio at one half although position / duration is 0:
    the guard of the progress effect treats position 0 as missing. *)
Theorem progress_stale_at_position_zero :
  let w1 := play obliging [StatusUpdate (playing_at 75000)] in
  let w2 := play obliging [StatusUpdate (playing_at 75000); StatusUpdate (playing_at 0)] in
  progressValue (player w1) == 0.5
  /\ positionMillis (status (player w2)) = Some 0
  /\ durationMillis (status (player w2)) = Some 150000
  /\ progressValue (player w2) == 0.5
  /\ ~ progressValue (player w2) == 0 / 150000.
Proof.
  cbv zeta. split; [|split; [|split; [|split]]].
  - vm_compute. reflexivity.
  - reflexivity.
  - reflexivity.
  - vm_compute. reflexivity.
  - vm_compute. discriminate.
Qed.

End VideoPlayerFacts.

(** * Further properties of the home screen *)

Module HomeScreenExtras.
Import HomeScreen HomeViews HomeScreenFacts.
Local Open Scope task_scope.

(** *** Trimming *)

Lemma trimStart_all (s : jsstring) :
  trimStart s = [] <-> forallb isWhiteSpace s = true.
Proof.
  induction s as [|c s IH]; simpl; [tauto|].
  destruct (isWhiteSpace c); simpl; [exact IH|]. split; discriminate.
Qed.

Lemma trimStart_head (s : jsstring) (c : N) (r : jsstring) :
  trimStart s = c :: r -> isWhiteSpace c = false.
Proof.
  induction s as [|a s IH]; simpl; [discriminate|].
  destruct (isWhiteSpace a) eqn:W; [exact IH|]. intros E. congruence.
Qed.

Lemma trimStart_fixed (s : jsstring) : trimStart (trimStart s) = trimStart s.
Proof.
  destruct (trimStart s) as [|c r] eqn:E; [reflexivity|].
  simpl. now rewrite (trimStart_head s c r E).
Qed.

(** What [trimStart] removes is whitespace, and only a leading run of it. *)
Lemma trimStart_split (s : jsstring) :
  exists w, s = w ++ trimStart s /\ forallb isWhiteSpace w = true.
Proof.
  induction s as [|c s [w [E W]]]; simpl.
  - exists []. split; reflexivity.
  - destruct (isWhiteSpace c) eqn:C.
    + exists (c :: w). simpl. rewrite C, W. split; [congruence | reflexivity].
    + exists []. split; reflexivity.
Qed.

Lemma forallb_rev (f : N -> bool) (l : list N) : forallb f (rev l) = forallb f l.
Proof.
  induction l as [|a l IH]; simpl; [reflexivity|].
  rewrite forallb_app, IH. simpl. rewrite andb_true_r. apply andb_comm.
Qed.

(** Trimming at the start keeps the end of a string that is not all
    whitespace. *)
Lemma trimStart_last (s : jsstring) (c : N) :
  isWhiteSpace c = false -> trimStart (s ++ [c]) = trimStart s ++ [c].
Proof.
  intros C. induction s as [|a s IH]; simpl; [now rewrite C|].
  destruct (isWhiteSpace a); [exact IH | reflexivity].
Qed.

Lemma trim_split (s : jsstring) :
  exists w1 w2, s = w1 ++ trim s ++ w2
                /\ forallb isWhiteSpace w1 = true /\ forallb isWhiteSpace w2 = true.
Proof.
  destruct (trimStart_split s) as [w1 [E1 W1]].
  destruct (trimStart_split (rev (trimStart s))) as [w2 [E2 W2]].
  exists w1, (rev w2). unfold trim, trimEnd. split; [|split].
  - rewrite E1 at 1. f_equal.
    rewrite <- (rev_involutive (trimStart s)) at 1. rewrite E2 at 1.
    now rewrite rev_app_distr.
  - exact W1.
  - now rewrite forallb_rev.
Qed.

Lemma trim_empty (s : jsstring) : trim s = [] <-> forallb isWhiteSpace s = true.
Proof.
  unfold trim, trimEnd. split.
  - intros E. apply (f_equal (@rev N)) in E. rewrite rev_involutive in E. simpl in E.
    apply trimStart_all in E. rewrite forallb_rev in E.
    destruct (trimStart s) as [|c r] eqn:T; [now apply trimStart_all|].
    simpl in E. rewrite (trimStart_head s c r T) in E. discriminate.
  - intros W. apply trimStart_all in W. rewrite W. reflexivity.
Qed.

Lemma trim_ends (s : jsstring) (c : N) (r : jsstring) :
  trim s = c :: r -> isWhiteSpace c = false /\ isWhiteSpace (last r c) = false.
Proof.
  unfold trim, trimEnd. destruct (trimStart s) as [|a y] eqn:T; [discriminate|].
  pose proof (trimStart_head s a y T) as A.
  simpl rev. rewrite (trimStart_last _ a A), rev_app_distr. simpl.
  intros E. injection E as <- <-. split; [exact A|].
  destruct (trimStart (rev y)) as [|b z] eqn:Z; [exact A|].
  simpl rev. rewrite last_last. exact (trimStart_head _ b z Z).
Qed.

Lemma trim_fixed (s : jsstring) : trim (trim s) = trim s.
Proof.
  destruct (trim s) as [|c r] eqn:E; [reflexivity|].
  destruct (trim_ends s c r E) as [C L].
  unfold trim, trimEnd. simpl trimStart. rewrite C.
  destruct (exists_last (l := c :: r) ltac:(discriminate)) as [x [b X]].
  assert (B : b = last r c).
  { transitivity (last (c :: r) c); [|destruct r; reflexivity].
    rewrite X. symmetry. apply last_last. }
  rewrite X, rev_app_distr. simpl. rewrite B, L. simpl.
  now rewrite rev_involutive.
Qed.

(** *** Every run of an upload *)

Lemma getUploadURL_log (R : Remote) : snd (getUploadURL R) = [ERequest PostUploadUrl].
Proof.
  unfold_task. destruct (R PostUploadUrl) as [e|r]; simpl; [reflexivity|].
  destruct (ok r); simpl; [|reflexivity]. destruct (body r); reflexivity.
Qed.

Lemma uploadVideoFile_log (url : jsval) (f : jsstring) (R : Remote) :
  snd (uploadVideoFile url f R) = [ERequest (PutFile url f)].
Proof.
  unfold_task. destruct (R (PutFile url f)) as [e|r]; simpl; [reflexivity|].
  destruct (status r =? 200); reflexivity.
Qed.

Lemma createVideoMetadata_log (t : jsstring) (fn : jsval) (R : Remote) :
  snd (createVideoMetadata t fn R) = [ERequest (PostVideo t fn)].
Proof.
  unfold_task. destruct (R (PostVideo t fn)) as [e|r]; simpl; [reflexivity|].
  destruct (ok r); reflexivity.
Qed.

Lemma acquired_outcome (R : Remote) (data url filename : jsval) :
  outcome getUploadURL R = Ok data ->
  prop data "url" = Ok url -> prop data "filename" = Ok filename ->
  acquired R = Some (url, filename).
Proof.
  unfold outcome, acquired. unfold_task.
  destruct (R PostUploadUrl) as [e|r]; simpl; [discriminate|].
  destruct (ok r); simpl; [|discriminate].
  destruct (body r); simpl; [|discriminate].
  intros E. injection E as ->. intros -> ->. reflexivity.
Qed.

Lemma transferred_outcome (R : Remote) (url : jsval) (f : jsstring) :
  outcome (uploadVideoFile url f) R = Ok tt <-> transferred R url f = true.
Proof.
  unfold outcome, transferred. unfold_task.
  destruct (R (PutFile url f)) as [e|r]; simpl; [split; discriminate|].
  destruct (status r =? 200); simpl; split; intros; congruence.
Qed.

Lemma committed_outcome (R : Remote) (t : jsstring) (fn : jsval) :
  outcome (createVideoMetadata t fn) R = Ok tt <-> committed R t fn = true.
Proof.
  unfold outcome, committed. unfold_task.
  destruct (R (PostVideo t fn)) as [e|r]; simpl; [split; discriminate|].
  destruct (ok r); simpl; split; intros; congruence.
Qed.

(** The shape of every run that passed validation. *)
Lemma submit_run (s : HomeState) (R : Remote) :
  valid s -> Run s R (run (submit s) R).
Proof.
  intros V. pose proof (valid_guard s V) as G.
  pose proof (getUploadURL_log R) as L1.
  destruct (getUploadURL R) as [[data|e1] l1] eqn:E1; simpl in L1; subst l1.
  2:{ replace (run (submit s) R) with (opening ++ failure_effects e1).
      - apply StopsAtAcquire. unfold outcome. now rewrite E1.
      - unfold run, submit, handleUpload. rewrite G.
        unfold bind, try_catch, finally, set, emit, alert, console_error, ret.
        rewrite E1. reflexivity. }
  destruct (prop data "url") as [url|e2] eqn:P1.
  2:{ replace (run (submit s) R)
        with (opening ++ [ESet (SetUploadProgress 40)] ++ failure_effects e2).
      - apply (StopsAtTarget s R data); [unfold outcome; now rewrite E1 | exact P1].
      - unfold run, submit, handleUpload. rewrite G.
        unfold bind, try_catch, finally, set, emit, alert, console_error, ret, lift.
        rewrite E1, P1. reflexivity. }
  destruct (prop_total data "url" "filename" url P1) as [filename P2].
  pose proof (uploadVideoFile_log url (fileOf s) R) as L2.
  destruct (uploadVideoFile url (fileOf s) R) as [[[]|e3] l2] eqn:E2; simpl in L2; subst l2.
  2:{ replace (run (submit s) R)
        with (opening
              ++ [ESet (SetUploadProgress 40); ERequest (PutFile url (fileOf s))]
              ++ failure_effects e3).
      - apply (StopsAtTransfer s R data); unfold outcome; try rewrite E1; try rewrite E2; auto.
      - unfold run, submit, handleUpload. rewrite G.
        unfold bind, try_catch, finally, set, emit, alert, console_error, ret, lift.
        rewrite E1, P1, E2. reflexivity. }
  pose proof (createVideoMetadata_log (trim (uploadTitle s)) filename R) as L3.
  destruct (createVideoMetadata (trim (uploadTitle s)) filename R) as [[[]|e4] l3] eqn:E3;
    simpl in L3; subst l3.
  2:{ replace (run (submit s) R)
        with (opening
              ++ [ESet (SetUploadProgress 40); ERequest (PutFile url (fileOf s));
                  ESet (SetUploadProgress 80);
                  ERequest (PostVideo (trim (uploadTitle s)) filename)]
              ++ failure_effects e4).
      - apply (StopsAtCommit s R data url filename);
          unfold outcome; try rewrite E1; try rewrite E2; try rewrite E3; auto.
      - unfold run, submit, handleUpload. rewrite G.
        unfold bind, try_catch, finally, set, emit, alert, console_error, ret, lift.
        rewrite E1, P1, E2, P2, E3. reflexivity. }
  assert (A : acquired R = Some (url, filename)).
  { apply (acquired_outcome R data); auto. unfold outcome. now rewrite E1. }
  assert (S : success_path s R = true).
  { unfold success_path. rewrite A. apply andb_true_iff. split.
    - apply transferred_outcome. unfold outcome. now rewrite E2.
    - apply committed_outcome. unfold outcome. now rewrite E3. }
  destruct (submit_success s R V S) as [u [f [A' E]]].
  rewrite A in A'. injection A' as <- <-.
  unfold run. rewrite E. cbn [snd]. now apply Completes.
Qed.

Lemma invalid_run (s : HomeState) (R : Remote) :
  negb (selected (selectedVideo s)) || negb (truthy_string (trim (uploadTitle s))) = true ->
  run (submit s) R =
    [EAlert (str "Error") (str "Please select a video and enter a title.")].
Proof.
  intros G. unfold run, submit, handleUpload. rewrite G. reflexivity.
Qed.

Lemma valid_or_not (s : HomeState) :
  valid s
  \/ negb (selected (selectedVideo s)) || negb (truthy_string (trim (uploadTitle s))) = true.
Proof.
  unfold valid. destruct (selected (selectedVideo s)); simpl; [|now right].
  destruct (trim (uploadTitle s)); simpl; [now right | left; split; [reflexivity|discriminate]].
Qed.

Lemma requests_resume (p : Reply) (R : Remote) (l : list Effect) :
  requests (l ++ snd (loadVideos_resume p R)) = requests l.
Proof.
  rewrite requests_app, loadVideos_resume_requests. apply app_nil_r.
Qed.

(** X1. An upload reaches the network exactly when a file is selected and
    the title has a character that is not whitespace; otherwise nothing is
    sent at all. *)
Theorem upload_sends_iff_file_and_visible_title (s : HomeState) (R : Remote) :
  requests (run (submit s) R) = []
  <-> selected (selectedVideo s) = false
      \/ forallb isWhiteSpace (uploadTitle s) = true.
Proof.
  rewrite <- trim_empty. split.
  - intros E. destruct (valid_or_not s) as [V|G].
    + exfalso. destruct (submit_run s R V); try rewrite requests_resume in E;
        discriminate E.
    + apply orb_true_iff in G. destruct G as [G|G]; apply negb_true_iff in G.
      * left. exact G.
      * right. destruct (trim (uploadTitle s)); [reflexivity | discriminate].
  - intros H. rewrite invalid_run; [reflexivity|].
    destruct H as [H|H]; rewrite H; simpl; auto using orb_true_r.
Qed.

(** X2. The title an upload stores is never empty and never begins or ends
    with whitespace: it is the typed title with the whitespace at both ends
    removed and nothing else changed, and trimming it again changes
    nothing. *)
Theorem stored_title_is_trimmed
    (s : HomeState) (R : Remote) (title : jsstring) (filename : jsval) :
  In (PostVideo title filename) (requests (run (submit s) R)) ->
  (exists c r, title = c :: r
               /\ isWhiteSpace c = false /\ isWhiteSpace (last r c) = false)
  /\ (exists w1 w2, uploadTitle s = w1 ++ title ++ w2
                    /\ forallb isWhiteSpace w1 = true
                    /\ forallb isWhiteSpace w2 = true)
  /\ trim title = title.
Proof.
  intros I.
  assert (T : title = trim (uploadTitle s) /\ valid s).
  { destruct (valid_or_not s) as [V|G].
    - split; [|exact V].
      destruct (submit_run s R V); try rewrite requests_resume in I; simpl in I;
        repeat (destruct I as [I|I]; try discriminate I); try contradiction;
        now injection I.
    - rewrite invalid_run in I by exact G. contradiction. }
  destruct T as [-> [_ V]]. split; [|split].
  - destruct (trim (uploadTitle s)) as [|c r] eqn:E; [congruence|].
    exists c, r. split; [reflexivity|]. now apply (trim_ends (uploadTitle s)).
  - apply trim_split.
  - apply trim_fixed.
Qed.

Lemma stored_title_is_trimmed_witness :
  In (PostVideo (str "Demo") (VStr (str "a1b2.mp4")))
     (requests (run (submit demo) healthy))
  /\ trim (str "Demo") = str "Demo".
Proof.
  assert (I : In (PostVideo (str "Demo") (VStr (str "a1b2.mp4")))
                 (requests (run (submit demo) healthy))).
  { vm_compute. right. right. left. reflexivity. }
  split; [exact I|].
  exact (proj2 (proj2 (stored_title_is_trimmed demo healthy _ _ I))).
Defined.

Lemma progress_resume (p : Reply) (R : Remote) (l : list Effect) :
  progress_trace (l ++ snd (loadVideos_resume p R)) = progress_trace l.
Proof.
  rewrite progress_trace_app, loadVideos_resume_progress. apply app_nil_r.
Qed.

(** X3. Whatever the service answers, an upload that passed validation
    writes an initial segment of 0, 20, 40, 80, 100 to the progress, at
    least 0 and 20, and then the reset to 0, which is its last write; every
    written value lies between 0 and 100, and 100 is written exactly on the
    success path. *)
Theorem upload_progress_any_outcome (s : HomeState) (R : Remote) :
  valid s ->
  exists p,
    progress_trace (run (submit s) R) = p ++ [0]
    /\ initial_segment p [0; 20; 40; 80; 100]
    /\ (2 <= length p)%nat
    /\ nondecreasing p = true
    /\ Forall (fun n => 0 <= n <= 100) (progress_trace (run (submit s) R))
    /\ (In 100 p <-> success_path s R = true).
Proof.
  intros V. destruct (submit_run s R V) as [e H|d e H P|d u e H P T|d u f e H P T Q C|u f S A].
  5:{ exists [0; 20; 40; 80; 100]. rewrite progress_resume.
      split; [reflexivity|]. split; [exists []; reflexivity|].
      split; [simpl; lia|]. split; [reflexivity|].
      split; [repeat constructor; lia|].
      split; [auto | simpl; auto 10]. }
  all: assert (F : success_path s R = false);
    [ unfold success_path;
      destruct (acquired R) as [[u' f']|] eqn:A; [|reflexivity] | ].
  - exfalso. unfold outcome in H. unfold acquired in A. revert H. unfold_task.
    destruct (R PostUploadUrl) as [|r]; [discriminate|]. simpl.
    destruct (ok r); [|discriminate]. simpl. destruct (body r); discriminate.
  - exists [0; 20]. split; [reflexivity|]. split; [exists [40; 80; 100]; reflexivity|].
    split; [simpl; lia|]. split; [reflexivity|]. split; [repeat constructor; lia|].
    split; [simpl; intuition discriminate | congruence].
  - exfalso. unfold outcome in H. unfold acquired in A. revert H. unfold_task.
    destruct (R PostUploadUrl) as [|r]; [discriminate|]. simpl.
    destruct (ok r); [|discriminate]. simpl.
    destruct (body r) as [d'|]; [|discriminate]. simpl. intros E. injection E as ->.
    rewrite P in A. discriminate.
  - exists [0; 20; 40]. split; [reflexivity|]. split; [exists [80; 100]; reflexivity|].
    split; [simpl; lia|]. split; [reflexivity|]. split; [repeat constructor; lia|].
    split; [simpl; intuition discriminate | congruence].
  - destruct (prop_total d "url" "filename" u P) as [f P2].
    rewrite (acquired_outcome R d u f H P P2) in A. injection A as <- <-.
    replace (transferred R u (fileOf s)) with false; [reflexivity|].
    destruct (transferred R u (fileOf s)) eqn:X; [|reflexivity].
    apply transferred_outcome in X. congruence.
  - exists [0; 20; 40]. split; [reflexivity|]. split; [exists [80; 100]; reflexivity|].
    split; [simpl; lia|]. split; [reflexivity|]. split; [repeat constructor; lia|].
    split; [simpl; intuition discriminate | congruence].
  - rewrite (acquired_outcome R d u f H P Q) in A. injection A as <- <-.
    replace (committed R (trim (uploadTitle s)) f) with false; [apply andb_false_r|].
    destruct (committed R (trim (uploadTitle s)) f) eqn:X; [|reflexivity].
    apply committed_outcome in X. congruence.
  - exists [0; 20; 40; 80]. split; [reflexivity|]. split; [exists [100]; reflexivity|].
    split; [simpl; lia|]. split; [reflexivity|]. split; [repeat constructor; lia|].
    split; [simpl; intuition discriminate | congruence].
Qed.

Lemma upload_progress_any_outcome_witness :
  valid demo
  /\ exists p, progress_trace (run (submit demo) transfer_500) = p ++ [0]
               /\ initial_segment p [0; 20; 40; 80; 100].
Proof.
  assert (V : valid demo) by (split; [reflexivity | vm_compute; discriminate]).
  split; [exact V|].
  destruct (upload_progress_any_outcome demo transfer_500 V) as [p [A [B _]]].
  exists p. split; assumption.
Defined.

Lemma before_requests_app (s : HomeState) (l m : list Effect) :
  before_requests s (l ++ m) = before_requests s l ++ before_requests (final_state s l) m.
Proof.
  revert s. induction l as [|[u|q|t x|t x] l IH]; intros s; simpl; try apply IH.
  - reflexivity.
  - now rewrite IH.
Qed.

Lemma before_requests_none (s : HomeState) (l : list Effect) :
  requests l = [] -> before_requests s l = [].
Proof.
  revert s. induction l as [|[u|q|t x|t x] l IH]; intros s; simpl; auto. discriminate.
Qed.

Lemma alerts_app (l m : list Effect) : alerts (l ++ m) = alerts l ++ alerts m.
Proof.
  induction l as [|[] l IH]; simpl; rewrite ?IH; reflexivity.
Qed.

Lemma valid_enabled (s : HomeState) :
  valid s -> forall v l r m u p,
  uploadDisabled (mkHome v l r m (uploadTitle s) (selectedVideo s) u p) = u.
Proof.
  intros V v l r m u p. apply valid_guard in V.
  apply orb_false_iff in V. destruct V as [V1 V2].
  unfold uploadDisabled. cbn [uploading selectedVideo uploadTitle].
  rewrite V1, V2. now rewrite !orb_false_r.
Qed.

(** X4. When any phase of a validated upload fails, the session is reset
    and nothing else is: the run ends with the uploading flag cleared and
    progress 0, the title, the picked file, the open modal and the listed
    videos are as before, exactly one alert was shown (the upload error), no
    refresh was requested, and the Upload button is enabled again so the
    same form can be resubmitted. *)
Theorem failed_upload_keeps_form (s : HomeState) (R : Remote) :
  valid s -> success_path s R = false ->
  let l := run (submit s) R in
  final_state s l =
    mkHome (videos s) (loading s) (refreshing s) (showUploadModal s)
      (uploadTitle s) (selectedVideo s) false 0
  /\ alerts l = [(str "Error", str "Failed to upload video. Please try again.")]
  /\ ~ In GetReady (requests l)
  /\ uploadDisabled (final_state s l) = false.
Proof.
  intros V F l.
  assert (E : final_state s l =
    mkHome (videos s) (loading s) (refreshing s) (showUploadModal s)
      (uploadTitle s) (selectedVideo s) false 0
    /\ alerts l = [(str "Error", str "Failed to upload video. Please try again.")]
    /\ ~ In GetReady (requests l)).
  { unfold l. destruct (submit_run s R V); try congruence;
      (split; [reflexivity|]; split; [reflexivity|]; simpl; intuition discriminate). }
  destruct E as [E1 [E2 E3]]. repeat split; auto.
  rewrite E1. now apply valid_enabled.
Qed.

Lemma failed_upload_keeps_form_witness :
  valid demo /\ success_path demo transfer_500 = false
  /\ final_state demo (run (submit demo) transfer_500) = demo.
Proof.
  assert (V : valid demo) by (split; [reflexivity | vm_compute; discriminate]).
  assert (F : success_path demo transfer_500 = false) by reflexivity.
  split; [exact V|]. split; [exact F|].
  exact (proj1 (failed_upload_keeps_form demo transfer_500 V F)).
Defined.

(** X5. Every request of a validated upload is sent while the uploading
    flag is set, so at that moment the modal has its Upload button, file
    picker, Cancel button and title field disabled; the progress on screen
    is 20 during the acquire call, 40 during the transfer, 80 during the
    commit. *)
Theorem requests_sent_while_uploading (s : HomeState) (R : Remote) :
  valid s ->
  forall q st,
    In (q, st) (before_requests s (run (submit s) R)) ->
    uploading st = true
    /\ uploadDisabled st = true
    /\ formDisabled st = true
    /\ uploadProgress st = progress_at q.
Proof.
  intros V q st I.
  assert (H : uploading st = true /\ uploadProgress st = progress_at q).
  { destruct (submit_run s R V);
      try (rewrite before_requests_app,
             (before_requests_none _ _ (loadVideos_resume_requests _ _)), app_nil_r in I);
      simpl in I;
      repeat (destruct I as [I|I]; [injection I as <- <-; split; reflexivity|]);
      contradiction. }
  destruct H as [U P]. unfold uploadDisabled, formDisabled. rewrite U. auto.
Qed.

Lemma requests_sent_while_uploading_witness :
  valid demo
  /\ forall q st, In (q, st) (before_requests demo (run (submit demo) healthy)) ->
                  uploadDisabled st = true.
Proof.
  assert (V : valid demo) by (split; [reflexivity | vm_compute; discriminate]).
  split; [exact V|]. intros q st I.
  exact (proj1 (proj2 (requests_sent_while_uploading demo healthy V q st I))).
Defined.

(** X6. The Upload button of the modal is enabled exactly when no upload is
    running, a file is selected and the trimmed title is non-empty; pressing
    it in that state never produces the validation alert: the run opens with
    the uploading flag, progress 0 and 20, and the acquire request. *)
Theorem upload_button_agrees_with_guard (s : HomeState) :
  (uploadDisabled s = false <-> uploading s = false /\ valid s)
  /\ (uploadDisabled s = false ->
      forall R, exists rest, run (submit s) R = opening ++ rest).
Proof.
  assert (A : uploadDisabled s = false <-> uploading s = false /\ valid s).
  { unfold uploadDisabled, valid. rewrite !orb_false_iff, !negb_false_iff.
    destruct (trim (uploadTitle s)); simpl; intuition congruence. }
  split; [exact A|]. intros D R. apply A in D. destruct D as [_ V].
  destruct (submit_run s R V); eexists; try reflexivity.
  all: rewrite <- ?app_assoc; reflexivity.
Qed.

(** *** Refreshing and deleting *)

Lemma loadVideos_outcome (show : bool) (R : Remote) :
  outcome (loadVideos show) R = Ok tt.
Proof.
  destruct (loadVideos_resume_run (R GetReady) R) as [O _].
  unfold outcome, loadVideos, loadVideos_begin, bind, issue, set, emit.
  destruct show; cbv beta iota;
    destruct (loadVideos_resume (R GetReady) R) as [o l]; simpl in *; now subst.
Qed.

(** X7. A refresh never throws and never leaves an indicator on: it sends
    the one listing request with the chosen indicator raised (the pull
    indicator for a pull-to-refresh, the loading flag otherwise), and
    whether the request succeeds or fails both flags are down afterwards;
    a failed request shows exactly one alert, and the upload session and
    form are not touched. *)
Theorem loadVideos_lowers_indicators
    (s : HomeState) (R : Remote) (showRefreshIndicator : bool) :
  let l := run (loadVideos showRefreshIndicator) R in
  let s' := final_state s l in
  outcome (loadVideos showRefreshIndicator) R = Ok tt
  /\ before_requests s l =
       [(GetReady,
         apply_update s (if showRefreshIndicator
                         then SetRefreshing true else SetLoading true))]
  /\ loading s' = false /\ refreshing s' = false
  /\ (refreshed (R GetReady) = None ->
      alerts l = [(str "Error", str "Failed to load videos. Please try again.")])
  /\ uploading s' = uploading s /\ uploadProgress s' = uploadProgress s
  /\ uploadTitle s' = uploadTitle s /\ selectedVideo s' = selectedVideo s
  /\ showUploadModal s' = showUploadModal s.
Proof.
  intros l s'. split; [apply loadVideos_outcome|].
  unfold s', l. rewrite loadVideos_run.
  destruct (loadVideos_resume_run (R GetReady) R) as [_ [pre [-> H]]].
  destruct (refreshed (R GetReady)) as [v|]; [subst pre | destruct H as [e ->]];
    destruct showRefreshIndicator; cbn; repeat split; try reflexivity;
    discriminate.
Qed.

(** X8. Declining the confirmation sends nothing and changes nothing.  A
    confirmed delete that the service accepts is followed by exactly one
    refresh; the list shown afterwards is the one that refresh fetched (the
    deleted item is not removed locally), or the old list if the refresh
    failed.  The handler never throws. *)
Theorem delete_then_refresh (s : HomeState) (R : Remote) (videoId : jsstring) :
  (run (handleDeleteVideo videoId Cancel) R =
     [EAlert (str "Delete Video") (str "Are you sure you want to delete this video?")])
  /\ (forall choice, outcome (handleDeleteVideo videoId choice) R = Ok tt)
  /\ (deleted (R (DeleteVideo videoId)) = true ->
      let l := run (handleDeleteVideo videoId Delete) R in
      requests l = [DeleteVideo videoId; GetReady]
      /\ videos (final_state s l) =
           match refreshed (R GetReady) with
           | Some v => v
           | None => videos s
           end
      /\ loading (final_state s l) = false
      /\ In (str "Success", str "Video deleted successfully!") (alerts l)).
Proof.
  split; [reflexivity|]. split.
  - intros [|]; [reflexivity|].
    pose proof (loadVideos_outcome false R) as O. unfold outcome in *.
    unfold handleDeleteVideo, deleteVideo, await_request, issue, settle, alert,
      console_error, emit, bind, ret, throw, try_catch.
    destruct (R (DeleteVideo videoId)) as [e|r]; simpl; [reflexivity|].
    destruct (ok r); simpl; [|reflexivity].
    destruct (loadVideos false R) as [o l]. simpl in O. subst o. reflexivity.
  - intros D l. unfold l. rewrite handleDeleteVideo_run, D, loadVideos_run.
    destruct (loadVideos_resume_run (R GetReady) R) as [_ [pre [-> H]]].
    destruct (refreshed (R GetReady)) as [v|]; [subst pre | destruct H as [e ->]];
      cbn; repeat split; auto.
Qed.

Lemma delete_then_refresh_witness :
  deleted (healthy (DeleteVideo (str "42"))) = true
  /\ requests (run (handleDeleteVideo (str "42") Delete) healthy)
     = [DeleteVideo (str "42"); GetReady].
Proof.
  assert (D : deleted (healthy (DeleteVideo (str "42"))) = true) by reflexivity.
  split; [exact D|].
  exact (proj1 (proj2 (proj2 (delete_then_refresh demo healthy (str "42"))) D)).
Defined.

(** *** Opening a video and picking a file *)

(** X9. A press on a card sends the one playback request, changes no state
    and shows exactly one dialog: the resolved value when the request
    succeeds, the error alert otherwise.  A success answer that carries
    neither field is not reported as an error: the dialog then shows
    [undefined]. *)
Theorem handleVideoPress_one_dialog (id : jsstring) (R : Remote) :
  press_requests (handleVideoPress id R) = [GetPlay id]
  /\ press_updates (handleVideoPress id R) = []
  /\ press_alerts (handleVideoPress id R) = [resolved (R (GetPlay id))]
  /\ (forall r fields,
      R (GetPlay id) = Replied r -> ok r = true -> body r = Some (VObj fields) ->
      lookup "url" fields = VUndefined -> lookup "playback_url" fields = VUndefined ->
      press_alerts (handleVideoPress id R) = [Some VUndefined]).
Proof.
  assert (A : press_requests (handleVideoPress id R) = [GetPlay id]
              /\ press_updates (handleVideoPress id R) = []
              /\ press_alerts (handleVideoPress id R) = [resolved (R (GetPlay id))]).
  { unfold handleVideoPress, resolved, getPlaybackURL. unfold_task.
    destruct (R (GetPlay id)) as [e|r]; simpl; [auto|].
    destruct (ok r); simpl; [|auto].
    destruct (body r) as [data|]; simpl; [|auto].
    destruct (prop data "url") as [url|]; simpl; [|auto].
    destruct (truthy url); simpl; [auto|].
    destruct (prop data "playback_url"); simpl; auto. }
  destruct A as [A1 [A2 A3]]. repeat split; auto.
  intros r fields E O B U P. rewrite A3. unfold resolved.
  rewrite E, O, B. simpl. rewrite U, P. reflexivity.
Qed.

(** X10. Cancelling the picker, a result without assets and a picker error
    all leave the state exactly as it was, so an earlier selection survives;
    only a completed pick writes the selection, and it writes the first
    asset's location, which is then the file a following upload transfers.
    Picking sends nothing, and only the error case shows an alert. *)
Theorem selectVideo_keeps_selection (s : HomeState) (reply : PickerReply) :
  let l := selectVideo reply in
  requests l = []
  /\ (forall a rest,
      reply = PickerResult false (Some (a :: rest)) ->
      final_state s l =
        mkHome (videos s) (loading s) (refreshing s) (showUploadModal s)
          (uploadTitle s) (Some (uri a)) (uploading s) (uploadProgress s)
      /\ alerts l = [])
  /\ ((forall a rest, reply <> PickerResult false (Some (a :: rest))) ->
      final_state s l = s)
  /\ (alerts l <> [] <-> exists error, reply = PickerFailed error)
  /\ (forall a rest R url f,
      reply = PickerResult false (Some (a :: rest)) ->
      In (PutFile url f) (requests (run (submit (final_state s l)) R)) ->
      f = uri a).
Proof.
  intros l. unfold l.
  assert (U : forall a rest R url f,
      reply = PickerResult false (Some (a :: rest)) ->
      In (PutFile url f) (requests (run (submit (final_state s (selectVideo reply))) R)) ->
      f = uri a).
  { intros a rest R url f -> I. cbn in I.
    match type of I with
    | In _ (requests (run (submit ?s') R)) =>
        destruct (submit_stage s' R); simpl in I;
          repeat (destruct I as [I|I]; try discriminate I); try contradiction;
          now injection I
    end. }
  destruct reply as [e|c [[|a r]|]]; cbn.
  - repeat split; try discriminate; eauto.
  - repeat split; try discriminate; try tauto; eauto. intros [e H]. discriminate.
  - destruct c; cbn.
    + repeat split; try discriminate; try tauto; eauto. intros [e H]. discriminate.
    + split; [reflexivity|]. split.
      * intros a' r' E. injection E as <- <-. auto.
      * split; [intros H; exfalso; now apply (H a r)|].
        split; [|exact U]. split; [tauto|]. intros [e H]. discriminate.
  - repeat split; try discriminate; try tauto; eauto. intros [e H]. discriminate.
Qed.

(** *** The listing *)

Lemma startsWith_iff (s p : jsstring) :
  startsWith s p = true <-> exists b, s = p ++ b.
Proof.
  revert s. induction p as [|x p IH]; intros s.
  - split; [intros _; now exists s | intros _; destruct s; reflexivity].
  - destruct s as [|y s]; simpl.
    + split; [discriminate | intros [b H]; discriminate].
    + rewrite andb_true_iff, N.eqb_eq, IH. split.
      * intros [-> [b ->]]. now exists b.
      * intros [b H]. injection H as -> ->. split; [reflexivity | now exists b].
Qed.

Lemma includes_iff (s p : jsstring) :
  includes s p = true <-> exists a b, s = a ++ p ++ b.
Proof.
  induction s as [|y s IH].
  - cbn [includes]. rewrite orb_false_r, startsWith_iff. split.
    + intros [b H]. exists [], b. exact H.
    + intros [a [b H]]. destruct a; [now exists b | discriminate].
  - cbn [includes]. rewrite orb_true_iff, startsWith_iff, IH. split.
    + intros [[b H]|[a [b H]]]; [exists [], b; exact H|].
      exists (y :: a), b. simpl. now rewrite H.
    + intros [a [b H]]. destruct a as [|z a]; [left; now exists b|].
      right. injection H as -> ->. now exists a, b.
Qed.

Lemma includes_trans (s p q : jsstring) :
  includes s p = true -> includes p q = true -> includes s q = true.
Proof.
  rewrite !includes_iff. intros [a [b ->]] [c [d ->]].
  exists (a ++ c), (d ++ b). now rewrite <- !app_assoc.
Qed.

Lemma same_string_eq (a b : jsstring) : same_string a b = true <-> a = b.
Proof.
  revert b. induction a as [|x a IH]; intros [|y b]; simpl; try (split; congruence).
  rewrite andb_true_iff, N.eqb_eq, IH. split; [intros [-> ->]; reflexivity|].
  intros E. now injection E.
Qed.

Section Listing.

Variable toLowerCase : jsstring -> jsstring.

Lemma filterM_titled (cat q : jsstring) (items : list jsval) :
  Forall titled items ->
  filterM (matchVideo toLowerCase cat q) items = Ok (filter (shown toLowerCase cat q) items).
Proof.
  induction 1 as [|v items [fields [t [-> T]]] _ IH]; [reflexivity|].
  cbn [filterM filter]. rewrite IH. unfold shown, matchVideo, lowerTitle.
  cbn [prop rbind]. rewrite T.
  destruct (same_string cat (str "1")); cbn [rbind];
    match goal with |- context [if ?b then _ else _] => destruct b end; reflexivity.
Qed.

(** What it takes for a listable item to be kept. *)
Lemma shown_iff (cat q : jsstring) (fields : list (string * jsval)) (t : jsstring) :
  lookup "title" fields = VStr t ->
  shown toLowerCase cat q (VObj fields) = true
  <-> includes (toLowerCase t) (toLowerCase q) = true
      /\ (cat = str "1"
          \/ strict_eq_name (lookup "category" fields)
               (option_map cat_name
                  (find (fun c => same_string (cat_id c) cat) categories)) = true).
Proof.
  intros T. unfold shown, matchVideo, lowerTitle. cbn [prop rbind]. rewrite T.
  destruct (same_string cat (str "1")) eqn:C; cbn [rbind].
  - apply same_string_eq in C. rewrite andb_true_l. tauto.
  - rewrite andb_true_iff. split; [tauto|]. intros [I [E|S]]; [|tauto].
    apply same_string_eq in E. congruence.
Qed.

(** X11. On a list of items that all have a string title the listing never
    throws and keeps the order.  With the first category (All) selected and
    a query that lowers to the empty string it shows every item.  Choosing
    another category only removes items, and the items left all carry that
    category's name; under an identifier that names no category only items
    without a category are left. *)
Theorem listing_by_category (items : list jsval) (cat q : jsstring) :
  Forall titled items ->
  exists kept all,
    filteredVideos toLowerCase (VArr items) cat q = Ok kept
    /\ filteredVideos toLowerCase (VArr items) (str "1") q = Ok all
    /\ kept = filter (shown toLowerCase cat q) items
    /\ (toLowerCase q = [] -> all = items)
    /\ (forall v, In v kept -> In v all)
    /\ (forall c v,
        In c categories -> cat_id c = cat -> cat <> str "1" -> In v kept ->
        prop v "category" = Ok (VStr (cat_name c)))
    /\ ((forall c, In c categories -> cat_id c <> cat) ->
        forall v, In v kept -> prop v "category" = Ok VUndefined).
Proof.
  intros T. exists (filter (shown toLowerCase cat q) items),
    (filter (shown toLowerCase (str "1") q) items).
  split; [now apply filterM_titled|]. split; [now apply filterM_titled|].
  split; [reflexivity|].
  assert (K : forall v, In v (filter (shown toLowerCase cat q) items) ->
     exists fields t, v = VObj fields /\ lookup "title" fields = VStr t
       /\ includes (toLowerCase t) (toLowerCase q) = true
       /\ (cat = str "1"
           \/ strict_eq_name (lookup "category" fields)
                (option_map cat_name
                   (find (fun c => same_string (cat_id c) cat) categories)) = true)).
  { intros v I. apply filter_In in I. destruct I as [I S].
    rewrite Forall_forall in T. destruct (T v I) as [fields [t [-> Ti]]].
    exists fields, t. split; [reflexivity|]. split; [exact Ti|].
    now apply (shown_iff cat q fields t Ti). }
  split; [|split; [|split]].
  - intros Q. rewrite <- (filter_true items) at 2. apply filter_ext_in.
    intros v I. rewrite Forall_forall in T. destruct (T v I) as [fields [t [-> Ti]]].
    apply (shown_iff (str "1") q fields t Ti). rewrite Q.
    split; [|now left]. apply includes_iff. exists [], (toLowerCase t). reflexivity.
  - intros v I. destruct (K v I) as [fields [t [-> [Ti [Inc _]]]]].
    apply filter_In. split; [now apply filter_In in I|].
    apply (shown_iff (str "1") q fields t Ti). auto.
  - intros c v Ic Ec Nc I. destruct (K v I) as [fields [t [-> [_ [_ [E|S]]]]]]; [congruence|].
    cbn [prop]. f_equal.
    assert (Fd : find (fun c0 => same_string (cat_id c0) cat) categories = Some c).
    { subst cat. simpl in Ic.
      repeat (destruct Ic as [<-|Ic]; [reflexivity|]). contradiction. }
    rewrite Fd in S. cbn [option_map] in S. unfold strict_eq_name in S.
    destruct (lookup "category" fields); try discriminate.
    apply same_string_eq in S. now subst.
  - intros None_ v I. destruct (K v I) as [fields [t [-> [_ [_ [E|S]]]]]].
    + exfalso. apply (None_ (mkCategory (str "1") (str "All") "grid-outline" "#FF6B35")).
      * left. reflexivity.
      * now rewrite E.
    + cbn [prop]. f_equal.
      assert (Fd : find (fun c0 => same_string (cat_id c0) cat) categories = None).
      { destruct (find _ categories) as [c|] eqn:Fd; [|reflexivity].
        apply find_some in Fd. destruct Fd as [Ic E]. apply same_string_eq in E.
        exfalso. now apply (None_ c). }
      rewrite Fd in S. cbn [option_map] in S. unfold strict_eq_name in S.
      destruct (lookup "category" fields); try discriminate. reflexivity.
Qed.

(** X12. Searching is by substring of the lowered title: an item is listed
    exactly when it is in the list, its lowered title contains the lowered
    query as a contiguous run of characters, and its category matches.
    Refining the query therefore only removes items: when the lowered new
    query contains the lowered old one, every item listed for the new query
    was listed for the old one; and two queries that lower to the same
    string list the same items. *)
Theorem search_refines (items : list jsval) (cat q q' : jsstring) :
  Forall titled items ->
  includes (toLowerCase q') (toLowerCase q) = true ->
  exists narrow wide,
    filteredVideos toLowerCase (VArr items) cat q' = Ok narrow
    /\ filteredVideos toLowerCase (VArr items) cat q = Ok wide
    /\ (forall v,
        In v wide <->
        In v items
        /\ exists fields t,
             v = VObj fields /\ lookup "title" fields = VStr t
             /\ (exists a b, toLowerCase t = a ++ toLowerCase q ++ b)
             /\ (cat = str "1"
                 \/ strict_eq_name (lookup "category" fields)
                      (option_map cat_name
                         (find (fun c => same_string (cat_id c) cat) categories))
                    = true))
    /\ (forall v, In v narrow -> In v wide)
    /\ (toLowerCase q' = toLowerCase q -> narrow = wide).
Proof.
  intros T Inc. exists (filter (shown toLowerCase cat q') items),
    (filter (shown toLowerCase cat q) items).
  split; [now apply filterM_titled|]. split; [now apply filterM_titled|]. split.
  { intros v. rewrite filter_In. split.
    - intros [I S]. split; [exact I|]. rewrite Forall_forall in T.
      destruct (T v I) as [fields [t [-> Ti]]]. exists fields, t.
      apply (shown_iff cat q fields t Ti) in S. destruct S as [S1 S2].
      apply includes_iff in S1. auto.
    - intros [I [fields [t [-> [Ti [Sub Cat]]]]]]. split; [exact I|].
      apply (shown_iff cat q fields t Ti). split; [|exact Cat].
      now apply includes_iff. }
  split.
  - intros v I. apply filter_In in I. destruct I as [I S]. apply filter_In.
    split; [exact I|]. rewrite Forall_forall in T.
    destruct (T v I) as [fields [t [-> Ti]]].
    apply (shown_iff cat q' fields t Ti) in S. destruct S as [S1 S2].
    apply (shown_iff cat q fields t Ti). split; [|exact S2].
    now apply (includes_trans _ (toLowerCase q')).
  - intros E. apply filter_ext_in. intros v I. rewrite Forall_forall in T.
    destruct (T v I) as [fields [t [-> Ti]]].
    unfold shown, matchVideo. now rewrite E.
Qed.

(** X13. The listing has no guard of its own.  It throws when [videos] is
    not an array, which is the value a successful refresh stores when the
    answer has no [videos] field; and it throws, whatever the category and
    the query, as soon as one item of the array has no string title. *)
Theorem listing_throws (s : HomeState) (R : Remote) (cat q : jsstring) :
  (forall r fields show,
     R GetReady = Replied r -> ok r = true -> body r = Some (VObj fields) ->
     lookup "videos" fields = VUndefined ->
     let s' := final_state s (run (loadVideos show) R) in
     videos s' = VUndefined
     /\ exists e, filteredVideos toLowerCase (videos s') cat q = Thrown e)
  /\ (forall items v,
     In v items -> (forall t, prop v "title" <> Ok (VStr t)) ->
     exists e, filteredVideos toLowerCase (VArr items) cat q = Thrown e).
Proof.
  split.
  - intros r fields show E O B U s'.
    assert (Rf : refreshed (R GetReady) = Some VUndefined).
    { unfold refreshed. rewrite E, O, B. cbn [opt_prop]. now rewrite U. }
    assert (V : videos s' = VUndefined).
    { unfold s'. rewrite loadVideos_run, final_state_app.
      rewrite (proj1 (proj2 (loadVideos_resume_videos (R GetReady) R _))), Rf.
      reflexivity. }
    split; [exact V|]. rewrite V. eexists. reflexivity.
  - intros items v I Nt. cbn [filteredVideos].
    induction items as [|a items IH]; [contradiction|].
    cbn [filterM].
    destruct (matchVideo toLowerCase cat q a) as [keep|e] eqn:M; [|eexists; reflexivity].
    cbn [rbind]. destruct I as [->|I].
    + exfalso. unfold matchVideo, lowerTitle in M.
      destruct (same_string cat (str "1")); cbn [rbind] in M.
      * destruct (prop v "title") as [[]|] eqn:P; cbn [rbind] in M; try discriminate.
        now apply (Nt s0).
      * destruct (prop v "category"); cbn [rbind] in M; [|discriminate].
        destruct (prop v "title") as [[]|] eqn:P; cbn [rbind] in M; try discriminate.
        now apply (Nt s0).
    + destruct (IH I) as [e ->]. eexists. reflexivity.
Qed.

End Listing.

Lemma shelf_titled : Forall titled shelf.
Proof.
  repeat constructor; eexists _, _; (split; [reflexivity|]); reflexivity.
Qed.

Lemma listing_by_category_witness :
  Forall titled shelf
  /\ filteredVideos asciiLower (VArr shelf) (str "2") (str "RAGA")
     = Ok [clip "Morning Raga" "Music"; clip "Evening raga" "Music"].
Proof.
  split; [exact shelf_titled|].
  destruct (listing_by_category asciiLower shelf (str "2") (str "RAGA") shelf_titled)
    as [kept [all [E [_ [K _]]]]].
  rewrite E, K. reflexivity.
Defined.

Lemma search_refines_witness :
  Forall titled shelf
  /\ includes (asciiLower (str "Raga")) (asciiLower (str "ra")) = true
  /\ exists narrow wide,
       filteredVideos asciiLower (VArr shelf) (str "1") (str "Raga") = Ok narrow
       /\ filteredVideos asciiLower (VArr shelf) (str "1") (str "ra") = Ok wide
       /\ forall v, In v narrow -> In v wide.
Proof.
  assert (I : includes (asciiLower (str "Raga")) (asciiLower (str "ra")) = true)
    by reflexivity.
  split; [exact shelf_titled|]. split; [exact I|].
  destruct (search_refines asciiLower shelf (str "1") (str "ra") (str "Raga")
              shelf_titled I) as [narrow [wide [A [B [_ [C _]]]]]].
  exists narrow, wide. auto.
Defined.

Lemma listing_throws_witness :
  videos (final_state demo (run (loadVideos false) bare_catalog)) = VUndefined
  /\ exists e,
       filteredVideos asciiLower
         (videos (final_state demo (run (loadVideos false) bare_catalog)))
         (str "1") [] = Thrown e.
Proof.
  destruct (proj1 (listing_throws asciiLower demo bare_catalog (str "1") [])
              _ _ false eq_refl eq_refl eq_refl eq_refl) as [A B].
  split; [exact A | exact B].
Defined.

(** *** The header *)

(** X23. The header is between 60 and 100 high whatever the scroll
    offset: 100 at the top and for any overscroll above it, 60 from offset 80
    on, [100 - offset / 2] in between, and it never grows as the list is
    scrolled down. *)
Theorem headerHeight_collapses (y y' : Q) :
  (60 <= headerHeight y <= 100)%Q
  /\ ((y <= 0)%Q -> headerHeight y == 100)
  /\ ((80 <= y)%Q -> headerHeight y == 60)
  /\ ((0 <= y <= 80)%Q -> headerHeight y == 100 - y / 2)
  /\ ((y <= y')%Q -> (headerHeight y' <= headerHeight y)%Q).
Proof.
  assert (L : forall x : Q, 100 + (x - 0) * (60 - 100) / (80 - 0) == 100 - x / 2)
    by (intros; field).
  assert (C : forall x : Q,
    ((x <= 0)%Q /\ headerHeight x == 100)
    \/ ((80 <= x)%Q /\ (0 < x)%Q /\ headerHeight x == 60)
    \/ ((0 < x)%Q /\ (x < 80)%Q /\ headerHeight x == 100 - x / 2)).
  { intros x. unfold headerHeight, Animated.interpolate_clamp.
    destruct (Qle_bool x 0) eqn:A.
    - left. split; [now apply Qle_bool_iff | reflexivity].
    - assert (A' : (0 < x)%Q).
      { apply Qnot_le_lt. intros H. apply Qle_bool_iff in H. congruence. }
      destruct (Qle_bool 80 x) eqn:B.
      + right. left. split; [now apply Qle_bool_iff|]. split; [exact A' | reflexivity].
      + right. right. split; [exact A'|]. split; [|apply L].
        apply Qnot_le_lt. intros H. apply Qle_bool_iff in H. congruence. }
  assert (H2 : forall x : Q, x / 2 == x * (1 # 2)) by (intros; field).
  destruct (C y) as [[A E]|[[A [A' E]]|[A [A' E]]]];
    destruct (C y') as [[B F]|[[B [B' F]]|[B [B' F]]]];
    rewrite ?H2 in *; repeat split; intros; lra.
Qed.

(** *** Failures of the API calls *)

(** X24. What each API call makes of an answer.  The six fetch-based
    calls send their one request and accept any status from 200 to 299: the
    two without a result then return, the three that read the body return it
    (or throw when it is not JSON), and the playback call picks its field
    from it; on any other status each throws an error whose message ends
    with the response's status text.  The transfer alone insists on status
    200: any other status, a 204 included, makes it throw an error naming
    the status.  A request that is rejected outright is rethrown unchanged
    by all seven. *)
Theorem api_calls_report_status (R : Remote) (id title : jsstring) (v : jsval) :
  let parsed (r : Response) (message : string) : Result jsval :=
    if ok r
    then match body r with
         | Some data => Ok data
         | None => Thrown (JsError "SyntaxError" (str "JSON Parse error"))
         end
    else Thrown (Error (str message ++ statusText r)) in
  let done (r : Response) (message : string) : Result unit :=
    if ok r then Ok tt else Thrown (Error (str message ++ statusText r)) in
  (forall r, R PostUploadUrl = Replied r ->
     getUploadURL R = (parsed r "Failed to get upload URL: ", [ERequest PostUploadUrl]))
  /\ (forall r, R (PostVideo title v) = Replied r ->
     createVideoMetadata title v R =
       (done r "Failed to create video metadata: ", [ERequest (PostVideo title v)]))
  /\ (forall r, R GetReady = Replied r ->
     getReadyVideos R = (parsed r "Failed to fetch videos: ", [ERequest GetReady]))
  /\ (forall r, R (GetVideo id) = Replied r ->
     getVideoById id R = (parsed r "Failed to fetch video: ", [ERequest (GetVideo id)]))
  /\ (forall r, R (DeleteVideo id) = Replied r ->
     deleteVideo id R =
       (done r "Failed to delete video: ", [ERequest (DeleteVideo id)]))
  /\ (forall r, R (GetPlay id) = Replied r ->
     getPlaybackURL id R =
       (match parsed r "Failed to get playback URL: " with
        | Ok data =>
            match prop data "url" with
            | Ok url => if truthy url then Ok url else prop data "playback_url"
            | Thrown e => Thrown e
            end
        | Thrown e => Thrown e
        end, [ERequest (GetPlay id)]))
  /\ (forall r, R (PutFile v id) = Replied r ->
     uploadVideoFile v id R =
       (if status r =? 200 then Ok tt
        else Thrown (Error (str "Failed to upload video: " ++ toString (status r))),
        [ERequest (PutFile v id)]))
  /\ (forall e,
     (R PostUploadUrl = Rejected e ->
        getUploadURL R = (Thrown e, [ERequest PostUploadUrl]))
     /\ (R (PutFile v id) = Rejected e ->
        uploadVideoFile v id R = (Thrown e, [ERequest (PutFile v id)]))
     /\ (R (PostVideo title v) = Rejected e ->
        createVideoMetadata title v R = (Thrown e, [ERequest (PostVideo title v)]))
     /\ (R GetReady = Rejected e -> getReadyVideos R = (Thrown e, [ERequest GetReady]))
     /\ (R (GetVideo id) = Rejected e ->
        getVideoById id R = (Thrown e, [ERequest (GetVideo id)]))
     /\ (R (GetPlay id) = Rejected e ->
        getPlaybackURL id R = (Thrown e, [ERequest (GetPlay id)]))
     /\ (R (DeleteVideo id) = Rejected e ->
        deleteVideo id R = (Thrown e, [ERequest (DeleteVideo id)]))).
Proof.
  cbv zeta. unfold getVideoById, getPlaybackURL.
  repeat split; intros; unfold_task;
    repeat match goal with
           | H : R _ = _ |- _ => rewrite H
           end;
    try match goal with
        | |- context [ok ?r] => destruct (ok r)
        | |- context [status ?r =? 200] => destruct (status r =? 200)
        end; cbn [negb];
    try match goal with
        | |- context [body ?r] => destruct (body r) as [data|]
        end; try reflexivity.
  destruct (prop data "url") as [url|]; [|reflexivity].
  destruct (truthy url); [reflexivity|].
  destruct (prop data "playback_url"); reflexivity.
Qed.

Lemma api_calls_report_status_witness :
  uploadVideoFile (VStr (str "u")) (str "f")
    (fun _ => Replied (mkResponse 204 (str "No Content") None))
  = (Thrown (Error (str "Failed to upload video: " ++ str "204")),
     [ERequest (PutFile (VStr (str "u")) (str "f"))])
  /\ deleteVideo (str "42") (fun _ => Replied (mkResponse 204 (str "No Content") None))
     = (Ok tt, [ERequest (DeleteVideo (str "42"))])
  /\ getVideoById (str "42") healthy = (Ok (VObj []), [ERequest (GetVideo (str "42"))]).
Proof.
  pose proof (api_calls_report_status
                (fun _ => Replied (mkResponse 204 (str "No Content") None))
                (str "f") (str "t") (VStr (str "u"))) as [_ [_ [_ [_ [_ [_ [F _]]]]]]].
  pose proof (api_calls_report_status
                (fun _ => Replied (mkResponse 204 (str "No Content") None))
                (str "42") (str "t") (VStr (str "u"))) as [_ [_ [_ [_ [D _]]]]].
  pose proof (api_calls_report_status healthy (str "42") (str "t") (VStr (str "u")))
    as [_ [_ [_ [G _]]]].
  split; [|split].
  - exact (F _ eq_refl).
  - exact (D _ eq_refl).
  - exact (G _ eq_refl).
Defined.

End HomeScreenExtras.

(** * Further properties of the player screen *)

Module VideoPlayerExtras.
Import VideoPlayer PlayerViews VideoPlayerFacts.
Local Open Scope Q_scope.

(** *** Reasoning over every reachable state *)

Lemma dispatch_player (h : Handler) (engine : Engine) (w : World) :
  player (dispatch h engine w) = progressEffect (player w) (fst (h engine (player w))).
Proof.
  unfold dispatch, commit. destruct (h engine (player w)) as [p' cs].
  cbn [player with_player fst]. now rewrite hideEffect_player.
Qed.

Lemma step_dispatch (engine : Engine) (w : World) (e : Event) :
  (forall n, e <> Elapse n) -> step engine w e = dispatch (handler e) engine w.
Proof.
  intros N. destruct e; try reflexivity. exfalso. now apply (N millis).
Qed.

Lemma fire_due_player (engine : Engine) (Q : Player -> Prop) :
  (forall p, Q p -> Q (progressEffect p (fst (hideCallback engine p)))) ->
  forall due w, Q (player w) -> Q (player (fire_due engine due w)).
Proof.
  intros H due. induction due as [|t due IH]; intros w I; [exact I|].
  cbn [fire_due]. destruct (pending (timer_id t) (timers w)); [|now apply IH].
  apply IH. unfold fire. rewrite dispatch_player. cbn [player]. now apply H.
Qed.

Lemma elapse_player (engine : Engine) (Q : Player -> Prop) :
  (forall p, Q p -> Q (progressEffect p (fst (hideCallback engine p)))) ->
  forall n w, Q (player w) -> Q (player (Nat.iter n (tick engine) w)).
Proof.
  intros H n. induction n as [|n IH]; intros w I; [exact I|].
  change (Nat.iter (S n) (tick engine) w) with (tick engine (Nat.iter n (tick engine) w)).
  unfold tick. apply fire_due_player; [exact H|]. cbn [player]. now apply IH.
Qed.

(** A property of the screen state that every handler keeps holds in every
    reachable state. *)
Lemma player_invariant (engine : Engine) (allowed : Event -> Prop) (Q : Player -> Prop) :
  Q mount ->
  (forall e p, allowed e -> Q p -> Q (progressEffect p (fst (handler e engine p)))) ->
  (forall p, Q p -> Q (progressEffect p (fst (hideCallback engine p)))) ->
  forall es, Forall allowed es -> Q (player (play engine es)).
Proof.
  intros Q0 H Hc es A. unfold play.
  assert (G : forall w, Q (player w) -> Q (player (fold_left (step engine) es w))).
  { induction A as [|e es Ae _ IH]; intros w I; [exact I|].
    cbn [fold_left]. apply IH. destruct e;
      try (rewrite step_dispatch by discriminate; rewrite dispatch_player; now apply H).
    cbn [step]. now apply elapse_player. }
  now apply G.
Qed.

Lemma progressEffect_fields (old new : Player) :
  let p := progressEffect old new in
  status p = status new /\ isPlaying p = isPlaying new /\ isLoading p = isLoading new
  /\ showControls p = showControls new /\ playbackRate p = playbackRate new
  /\ isMuted p = isMuted new /\ progressBarWidth p = progressBarWidth new
  /\ controlsOpacity p = controlsOpacity new /\ videoRef p = videoRef new.
Proof.
  unfold progressEffect, updateProgress.
  repeat match goal with
         | |- context [if ?b then _ else _] => destruct b
         end; cbn; repeat split; reflexivity.
Qed.

Lemma any_allowed (es : list Event) : Forall (fun _ => True) es.
Proof. induction es; constructor; auto. Qed.

(** X14. In every state the player reaches, the opacity the overlay is
    animated towards agrees with the visibility flag: 1 while the controls
    are shown, 0 while they are hidden, whether they were hidden by a tap or
    by the timer. *)
Theorem opacity_follows_visibility (engine : Engine) (es : list Event) :
  let p := player (play engine es) in
  controlsOpacity p = if showControls p then 1 else 0.
Proof.
  apply (player_invariant engine (fun _ => True)
           (fun p => controlsOpacity p = if showControls p then 1 else 0)).
  - reflexivity.
  - intros e p _ I.
    destruct (progressEffect_fields p (fst (handler e engine p)))
      as [_ [_ [_ [S [_ [_ [_ [O _]]]]]]]].
    cbv zeta in S, O. rewrite S, O. clear S O.
    destruct e; cbn [handler];
      unfold handleScreenTap, onPlaybackStatusUpdate, togglePlayPause,
        changePlaybackRate, toggleMute, handleSeek, handleProgressBarLayout, hideCallback;
      destruct (showControls p) eqn:SC;
      repeat match goal with
             | |- context [if ?b then _ else _] => destruct b eqn:?
             end; cbn in *; rewrite ?SC in *; try assumption; try congruence;
      try reflexivity.
  - intros p I.
    destruct (progressEffect_fields p (fst (hideCallback engine p)))
      as [_ [_ [_ [S [_ [_ [_ [O _]]]]]]]].
    cbv zeta in S, O. rewrite S, O. reflexivity.
  - apply any_allowed.
Qed.

(** How an observation of the screen state evolves along the events. *)
Lemma player_fold (engine : Engine) (A : Type) (f : Player -> A) (g : Event -> A -> A) :
  (forall e p, (forall n, e <> Elapse n) ->
     f (progressEffect p (fst (handler e engine p))) = g e (f p)) ->
  (forall p, f (progressEffect p (fst (hideCallback engine p))) = f p) ->
  (forall n a, g (Elapse n) a = a) ->
  forall es w,
    f (player (fold_left (step engine) es w)) = fold_left (fun a e => g e a) es (f (player w)).
Proof.
  intros H Hc Hg es. induction es as [|e es IH]; intros w; [reflexivity|].
  cbn [fold_left]. rewrite IH. f_equal.
  destruct e; try (rewrite step_dispatch by discriminate; rewrite dispatch_player;
                   apply H; discriminate).
  cbn [step]. rewrite Hg.
  apply (elapse_player engine (fun p => f p = f (player w))); [|reflexivity].
  intros p E. now rewrite Hc.
Qed.

Ltac handlers :=
  unfold handleScreenTap, onPlaybackStatusUpdate, togglePlayPause,
    changePlaybackRate, toggleMute, handleSeek, handleProgressBarLayout, hideCallback.

Ltac cases :=
  repeat match goal with
         | |- context [if ?b then _ else _] => destruct b eqn:?
         end;
  cbn;
  repeat match goal with
         | E : ?x = _ |- context [?x] => rewrite E
         end.

(** X15. The player leaves the loading state at the first status update
    that reports the media loaded and never returns to it: it is loading
    exactly as long as no such update has arrived, whatever else happened,
    even if the engine later reports an unloaded status. *)
Theorem loading_until_first_loaded_status (engine : Engine) (es : list Event) :
  isLoading (player (play engine es)) = negb (existsb loadedUpdate es)
  /\ (forall more,
      isLoading (player (play engine es)) = false ->
      isLoading (player (play engine (es ++ more))) = false).
Proof.
  assert (F : forall es w,
    isLoading (player (fold_left (step engine) es w))
    = fold_left (fun a e => a && negb (loadedUpdate e)) es (isLoading (player w))).
  { apply (player_fold engine bool isLoading (fun e a => a && negb (loadedUpdate e))).
    - intros e p _.
      destruct (progressEffect_fields p (fst (handler e engine p))) as [_ [_ [L _]]].
      cbv zeta in L. rewrite L.
      destruct e; cbn [handler loadedUpdate]; handlers; cases;
        rewrite ?andb_true_r, ?andb_false_r; reflexivity.
    - intros p.
      destruct (progressEffect_fields p (fst (hideCallback engine p))) as [_ [_ [L _]]].
      cbv zeta in L. rewrite L. reflexivity.
    - intros n a. apply andb_true_r. }
  assert (G : forall es b,
    fold_left (fun a e => a && negb (loadedUpdate e)) es b = b && negb (existsb loadedUpdate es)).
  { clear. induction es as [|e es IH]; intros b; cbn [fold_left existsb].
    - now rewrite andb_true_r.
    - rewrite IH, negb_orb. now rewrite andb_assoc. }
  split.
  - unfold play. rewrite F, G. reflexivity.
  - intros more E. unfold play in *. rewrite fold_left_app, F, E, G. reflexivity.
Qed.

Lemma nextRate_nth (i : nat) :
  (i < 6)%nat -> nextRate (nth i rates 0) = nth ((i + 1) mod 6) rates 0.
Proof.
  intros H. do 6 (destruct i as [|i]; [reflexivity|]). lia.
Qed.

Lemma nextRate_compat (r r' : Q) : r == r' -> nextRate r = nextRate r'.
Proof.
  intros E. unfold nextRate, nextIndex, indexOf.
  now rewrite (indexOf_from_compat rates 0 r r' E).
Qed.

(** X16. The rate on screen depends only on how many times the rate button
    was pressed: after [k] presses it is entry [(2 + k) mod 6] of the rate
    list, whatever else happened in between and whether or not the media had
    loaded.  In particular it is always one of the six rates. *)
Theorem rate_counts_presses (engine : Engine) (es : list Event) :
  let r := playbackRate (player (play engine es)) in
  r == nth ((2 + ratePresses es) mod 6) rates 0
  /\ exists r', In r' rates /\ r == r'.
Proof.
  assert (F : forall es w,
    playbackRate (player (fold_left (step engine) es w))
    = fold_left (fun a e => match e with RatePress => nextRate a | _ => a end) es
        (playbackRate (player w))).
  { apply (player_fold engine Q playbackRate
             (fun e a => match e with RatePress => nextRate a | _ => a end)).
    - intros e p _.
      destruct (progressEffect_fields p (fst (handler e engine p)))
        as [_ [_ [_ [_ [L _]]]]].
      cbv zeta in L. rewrite L.
      destruct e; cbn [handler]; handlers; cases; reflexivity.
    - intros p.
      destruct (progressEffect_fields p (fst (hideCallback engine p)))
        as [_ [_ [_ [_ [L _]]]]].
      cbv zeta in L. rewrite L. reflexivity.
    - reflexivity. }
  assert (G : forall es i r, (i < 6)%nat -> r == nth i rates 0 ->
    fold_left (fun a e => match e with RatePress => nextRate a | _ => a end) es r
    == nth ((i + ratePresses es) mod 6) rates 0).
  { clear. induction es as [|e es IH]; intros i r Hi E.
    - unfold ratePresses. cbn [fold_left filter length].
      rewrite Nat.add_0_r, Nat.mod_small by exact Hi. exact E.
    - cbn [fold_left]. destruct e;
        try (unfold ratePresses in *; cbn [filter]; now apply IH).
      rewrite (IH ((i + 1) mod 6)%nat).
      + unfold ratePresses. cbn [filter length].
        rewrite Nat.Div0.add_mod_idemp_l.
        replace (i + 1 + length (filter (fun e => match e with RatePress => true | _ => false end) es))%nat
          with (i + S (length (filter (fun e => match e with RatePress => true | _ => false end) es)))%nat
          by lia.
        reflexivity.
      + apply Nat.mod_upper_bound. lia.
      + rewrite (nextRate_compat r (nth i rates 0) E), nextRate_nth by exact Hi.
        reflexivity. }
  assert (H : playbackRate (player (play engine es))
              == nth ((2 + ratePresses es) mod 6) rates 0).
  { unfold play. rewrite F. apply G; [lia | reflexivity]. }
  cbv zeta. split; [exact H|].
  exists (nth ((2 + ratePresses es) mod 6) rates 0). split; [|exact H].
  apply nth_In. change (length rates) with 6%nat. apply Nat.mod_upper_bound. lia.
Qed.

(** A handler that issues nothing and leaves the two dependencies of the
    hide effect alone only changes the screen state. *)
Lemma dispatch_quiet (h : Handler) (engine : Engine) (w : World) :
  snd (h engine (player w)) = [] ->
  showControls (fst (h engine (player w))) = showControls (player w) ->
  isLoading (fst (h engine (player w))) = isLoading (player w) ->
  dispatch h engine w =
    mkWorld (progressEffect (player w) (fst (h engine (player w))))
      (clock w) (timers w) (next_id w) (hide_timeout w) (commands w) (timer_log w).
Proof.
  unfold dispatch, commit, hideEffect.
  destruct (h engine (player w)) as [p' cs]. cbn [fst snd]. intros -> S L.
  cbn [player with_player]. rewrite S, L, !eqb_reflx. cbn [andb].
  cbn [player clock timers next_id hide_timeout commands timer_log with_player].
  now rewrite app_nil_r.
Qed.

Lemma classic_elapse (e : Event) : (exists n, e = Elapse n) \/ (forall n, e <> Elapse n).
Proof.
  destruct e; try (right; discriminate). left. now exists millis.
Qed.

Lemma tick_idle (engine : Engine) (w : World) :
  timers w = [] ->
  tick engine w =
    mkWorld (player w) (S (clock w)) [] (next_id w) (hide_timeout w)
      (commands w) (timer_log w).
Proof.
  intros E. unfold tick. cbn [timers clock]. rewrite E. reflexivity.
Qed.

(** What stays put on a player that has not loaded. *)
Lemma loading_player_kept (engine : Engine) (e : Event) (p : Player) :
  loadedUpdate e = false -> (forall n, e <> Elapse n) ->
  isLoaded (status p) = false -> isLoading p = true -> showControls p = true ->
  controlsOpacity p = 1 -> isPlaying p = true -> isMuted p = false ->
  let p' := fst (handler e engine p) in
  snd (handler e engine p) = []
  /\ isLoaded (status p') = false /\ isLoading p' = true /\ showControls p' = true
  /\ controlsOpacity p' = 1 /\ isPlaying p' = true /\ isMuted p' = false.
Proof.
  intros Le Ne Ld Lg Sc Op Pl Mu.
  destruct p as [st pl lg sc rate mu wd op pv vr]. cbn in Ld, Lg, Sc, Op, Pl, Mu.
  subst lg sc op pl mu.
  destruct e; cbn [handler loadedUpdate] in *; handlers;
    cbn [status isLoading showControls isPlaying isMuted videoRef progressBarWidth
         setStatus setIsPlaying setIsLoading setShowControls setPlaybackRate
         setIsMuted setProgressBarWidth setControlsOpacity];
    rewrite ?Ld, ?Le, ?andb_false_r, ?orb_true_r; cbn; auto 10.
  exfalso. now apply (Ne millis).
Qed.

(** X17. Until the engine reports the media loaded, the player issues no
    engine command and arms no timer whatever the user presses, the controls
    stay visible at full opacity, and the play and mute flags keep their
    initial values.  The rate button is the one control that is not gated:
    pressed while loading it still stores the next rate (the value handed to
    the video element and shown on the overlay), though it sends no command
    either. *)
Theorem loading_gates_all_but_rate (engine : Engine) (es : list Event) :
  Forall (fun e => loadedUpdate e = false) es ->
  let w := play engine es in
  commands w = [] /\ timers w = [] /\ timer_log w = []
  /\ isLoading (player w) = true /\ showControls (player w) = true
  /\ controlsOpacity (player w) = 1
  /\ isPlaying (player w) = true /\ isMuted (player w) = false
  /\ playbackRate (player (step engine w RatePress)) = nextRate (playbackRate (player w))
  /\ commands (step engine w RatePress) = [].
Proof.
  intros A.
  assert (Rate : forall w, playbackRate (player (step engine w RatePress))
                           = nextRate (playbackRate (player w))).
  { intros w. cbn [step]. rewrite dispatch_player.
    destruct (progressEffect_fields (player w)
                (fst (changePlaybackRate engine (player w)))) as [_ [_ [_ [_ [F _]]]]].
    cbv zeta in F. rewrite F. unfold changePlaybackRate.
    destruct (videoRef (player w) && isLoaded (status (player w))); reflexivity. }
  set (J := fun w : World =>
    (commands w = [] /\ timers w = [] /\ timer_log w = [])
    /\ isLoaded (status (player w)) = false
    /\ isLoading (player w) = true /\ showControls (player w) = true
    /\ controlsOpacity (player w) = 1
    /\ isPlaying (player w) = true /\ isMuted (player w) = false).
  assert (T : forall n w, J w -> J (Nat.iter n (tick engine) w)).
  { induction n as [|n IH]; intros w I; [exact I|].
    change (Nat.iter (S n) (tick engine) w) with (tick engine (Nat.iter n (tick engine) w)).
    specialize (IH w I). destruct IH as [[C [Ti L]] P].
    rewrite tick_idle by exact Ti. split; [cbn; auto | exact P]. }
  assert (S : forall e w, loadedUpdate e = false -> J w -> J (step engine w e)).
  { intros e w Le [[C [Ti L]] [Ld [Lg [Sc [Op [Pl Mu]]]]]].
    destruct (classic_elapse e) as [[n ->]|Ne].
    - apply T. unfold J. auto 10.
    - destruct (loading_player_kept engine e (player w) Le Ne Ld Lg Sc Op Pl Mu)
        as [Q0 [Q1 [Q2 [Q3 [Q4 [Q5 Q6]]]]]].
      rewrite step_dispatch by exact Ne.
      rewrite dispatch_quiet by congruence.
      destruct (progressEffect_fields (player w) (fst (handler e engine (player w))))
        as [F1 [F2 [F3 [F4 [_ [F6 [_ [F8 _]]]]]]]].
      unfold J. cbn [player commands timers timer_log].
      rewrite F1, F2, F3, F4, F6, F8. auto 10. }
  assert (G : forall w, J w -> J (fold_left (step engine) es w)).
  { induction A as [|e es Ae _ IH]; intros w I; [exact I|].
    cbn [fold_left]. apply IH. now apply S. }
  pose proof (G mounted) as I0.
  destruct I0 as [[C [Ti L]] [Ld P]].
  { unfold J. cbn. auto 10. }
  assert (C' : commands (step engine (play engine es) RatePress) = []).
  { destruct (S RatePress (play engine es) eq_refl) as [[C' _] _]; [|exact C'].
    unfold J. unfold play. tauto. }
  destruct P as [Lg [Sc [Op [Pl Mu]]]]. cbv zeta.
  repeat split; first [assumption | apply Rate | exact C'].
Qed.

Lemma loading_gates_all_but_rate_witness :
  Forall (fun e => loadedUpdate e = false)
    [RatePress; PlayPausePress; SeekPress 50; ScreenTap; MutePress; Elapse 4000]
  /\ commands (play obliging
                 [RatePress; PlayPausePress; SeekPress 50; ScreenTap; MutePress;
                  Elapse 4000]) = []
  /\ playbackRate (player (play obliging [RatePress])) = 1.25.
Proof.
  assert (A : Forall (fun e => loadedUpdate e = false)
                [RatePress; PlayPausePress; SeekPress 50; ScreenTap; MutePress;
                 Elapse 4000])
    by (repeat constructor).
  split; [exact A|]. split.
  - exact (proj1 (loading_gates_all_but_rate obliging _ A)).
  - assert (B : Forall (fun e => loadedUpdate e = false) []) by constructor.
    destruct (loading_gates_all_but_rate obliging [] B)
      as [_ [_ [_ [_ [_ [_ [_ [_ [Rate _]]]]]]]]].
    exact Rate.
Defined.

(** *** What the overlay shows *)

Lemma interpolate_clamp_bounds (x : Q) :
  0 <= Animated.interpolate_clamp 0 1 0 100 x <= 100
  /\ (0 <= x <= 1 -> Animated.interpolate_clamp 0 1 0 100 x == 100 * x).
Proof.
  unfold Animated.interpolate_clamp.
  destruct (Qle_bool x 0) eqn:A.
  - apply Qle_bool_iff in A. split; [lra|]. intros. lra.
  - assert (A' : 0 < x).
    { apply Qnot_le_lt. intros H. apply Qle_bool_iff in H. congruence. }
    destruct (Qle_bool 1 x) eqn:B.
    + apply Qle_bool_iff in B. split; [lra|]. intros. lra.
    + assert (B' : x < 1).
      { apply Qnot_le_lt. intros H. apply Qle_bool_iff in H. congruence. }
      assert (E : 0 + (x - 0) * (100 - 0) / (1 - 0) == 100 * x) by field.
      rewrite E. split; [lra|]. intros. lra.
Qed.

Lemma ratio_bounds (position duration : Q) :
  0 <= position <= duration -> ~ duration == 0 -> 0 <= position / duration <= 1.
Proof.
  intros [P D] N. assert (0 < duration) by lra. split.
  - apply Qle_shift_div_l; lra.
  - apply Qle_shift_div_r; lra.
Qed.

(** X18. As long as the engine reports positions within the clip and the
    layout reports widths that are not negative, the progress ratio stays
    between 0 and 1 in every reachable state; the fill is then exactly
    [100 * ratio] percent wide (the clamp never cuts), and the thumb sits
    within the track.  The width of the fill is between 0 and 100 percent
    in any case. *)
Theorem progress_stays_within_track (engine : Engine) (es : list Event) :
  Forall well_formed es ->
  let p := player (play engine es) in
  0 <= progressValue p <= 1
  /\ progressWidth p == 100 * progressValue p
  /\ 0 <= thumbOffset p <= progressBarWidth p
  /\ forall q : Player, 0 <= progressWidth q <= 100.
Proof.
  intros A.
  set (Q := fun p : Player =>
    0 <= progressValue p <= 1 /\ 0 <= progressBarWidth p /\ within_clip (status p)).
  assert (U : forall old new, 0 <= progressValue new <= 1 -> 0 <= progressBarWidth new ->
              within_clip (status new) -> Q (progressEffect old new)).
  { intros old new V W C. unfold progressEffect, updateProgress.
    destruct (same_field _ _ && same_field _ _); [now split|].
    destruct (truthy_field (durationMillis (status new))
              && truthy_field (positionMillis (status new))) eqn:T; [|now split].
    apply andb_true_iff in T. destruct T as [Td Tp].
    destruct (durationMillis (status new)) as [d|] eqn:D; [|discriminate].
    destruct (positionMillis (status new)) as [x|] eqn:X; [|discriminate].
    cbn [truthy_field number] in *. apply truthy_number_true in Td.
    split; [|split].
    - cbn. apply ratio_bounds; [now apply C | exact Td].
    - exact W.
    - cbn. exact C. }
  assert (I : Q (player (play engine es))).
  { apply (player_invariant engine well_formed Q).
    - unfold Q. cbn. split; [lra|]. split; [lra|]. intros x d H. discriminate.
    - intros e p We [V [W C]].
      destruct e; cbn [handler well_formed] in *; handlers;
        repeat match goal with
               | |- context [if ?b then _ else _] => destruct b
               end; cbn [fst]; apply U; cbn; auto.
    - intros p [V [W C]]. handlers. cbn [fst]. apply U; cbn; auto.
    - exact A. }
  destruct I as [V [W _]]. cbv zeta. split; [exact V|]. split; [|split].
  - apply interpolate_clamp_bounds. exact V.
  - unfold thumbOffset. nra.
  - intros q. apply interpolate_clamp_bounds.
Qed.

Lemma progress_stays_within_track_witness :
  Forall well_formed [ProgressBarLayout 200; StatusUpdate (playing_at 75000)]
  /\ progressWidth
       (player (play obliging [ProgressBarLayout 200; StatusUpdate (playing_at 75000)]))
     == 50.
Proof.
  assert (A : Forall well_formed [ProgressBarLayout 200; StatusUpdate (playing_at 75000)]).
  { constructor; [cbn; discriminate|]. constructor; [|constructor].
    intros x d E1 E2. injection E1 as <-. injection E2 as <-. split; discriminate. }
  split; [exact A|].
  rewrite (proj1 (proj2 (progress_stays_within_track obliging _ A))).
  vm_compute. reflexivity.
Defined.

(** X19. Play/pause is optimistic but not blind.  Unless the media is
    loaded the button does nothing.  Once loaded it asks the engine to pause
    if playing and to play otherwise, and flips the flag only when that
    request is acknowledged; a rejected request leaves the flag as it was.
    Whatever the flag says, the next loaded status update sets it to the
    engine's play intent. *)
Theorem play_pause_follows_engine (engine : Engine) (p : Player) :
  (isLoaded (status p) = false -> togglePlayPause engine p = (p, []))
  /\ (isLoaded (status p) = true -> videoRef p = true ->
      let c := if isPlaying p then PauseAsync else PlayAsync in
      togglePlayPause engine p =
        (if engine c then setIsPlaying (negb (isPlaying p)) p else p, [c]))
  /\ (forall w s,
      isLoaded s = true ->
      isPlaying (player (step engine (step engine w PlayPausePress) (StatusUpdate s)))
        = shouldPlay s).
Proof.
  split; [|split].
  - intros L. unfold togglePlayPause. now rewrite L.
  - intros L V. unfold togglePlayPause. rewrite L, V.
    destruct (isPlaying p); cbv zeta; destruct (engine _); reflexivity.
  - intros w s L. cbn [step]. rewrite dispatch_player.
    match goal with
    | |- context [progressEffect ?a ?b] =>
        destruct (progressEffect_fields a b) as [_ [F _]]
    end.
    cbv zeta in F. rewrite F. unfold onPlaybackStatusUpdate. rewrite L. cbn.
    destruct (shouldPlay s); reflexivity.
Qed.

Lemma play_pause_follows_engine_witness :
  togglePlayPause obliging sample = (setIsPlaying false sample, [PauseAsync])
  /\ togglePlayPause (fun _ => false) sample = (sample, [PauseAsync]).
Proof.
  split.
  - exact (proj1 (proj2 (play_pause_follows_engine obliging sample)) eq_refl eq_refl).
  - exact (proj1 (proj2 (play_pause_follows_engine (fun _ => false) sample))
             eq_refl eq_refl).
Defined.

(** X20. Muting is independent of the play state: the mute button never
    changes the play flag, the play button never changes the mute flag, and
    pressing the two in either order gives the same state and the same two
    commands, whatever the engine answers. *)
Theorem mute_and_play_commute (engine : Engine) (p : Player) :
  let a := togglePlayPause engine p in
  let ab := toggleMute engine (fst a) in
  let b := toggleMute engine p in
  let ba := togglePlayPause engine (fst b) in
  fst ab = fst ba
  /\ snd a = snd ba /\ snd b = snd ab
  /\ isMuted (fst a) = isMuted p /\ isPlaying (fst b) = isPlaying p.
Proof.
  unfold togglePlayPause, toggleMute.
  destruct p as [[ld pos dur sp] pl lg sc rate mu wd op pv vr].
  destruct ld, vr, pl, mu; cbn;
    destruct (engine PauseAsync) eqn:E1, (engine PlayAsync) eqn:E2,
      (engine (SetIsMutedAsync true)) eqn:E3, (engine (SetIsMutedAsync false)) eqn:E4;
    cbn; rewrite ?E1, ?E2, ?E3, ?E4; cbn; repeat split; reflexivity.
Qed.

(** X21. Like and dislike exclude each other: starting from neither, no
    sequence of presses makes both true.  A like always clears the dislike
    and a dislike always clears the like; pressing the same button twice
    from a neutral state returns to it. *)
Theorem like_excludes_dislike (presses : list Press) :
  let r := fold_left react presses neutral in
  isLiked r && isDisliked r = false
  /\ (forall r0, isDisliked (handleLike r0) = false /\ isLiked (handleDislike r0) = false)
  /\ handleLike (handleLike neutral) = neutral
  /\ handleDislike (handleDislike neutral) = neutral.
Proof.
  assert (G : forall r, isLiked r && isDisliked r = false ->
                isLiked (fold_left react presses r)
                && isDisliked (fold_left react presses r) = false).
  { induction presses as [|x presses IH]; intros r H; [exact H|].
    cbn [fold_left]. apply IH. destruct r as [[] []], x; cbn in *; congruence. }
  split; [apply G; reflexivity|]. split; [|split; reflexivity].
  intros [[] []]; split; reflexivity.
Qed.

Lemma formatTime_compat (a b : Q) : a == b -> formatTime a = formatTime b.
Proof.
  intros E. unfold formatTime, Math_floor.
  assert (F : Qfloor (a / 1000) = Qfloor (b / 1000)) by (now rewrite E).
  now rewrite F.
Qed.

Lemma formatTime_first_second (q : Q) : 0 <= q -> q < 1000 -> formatTime q = str "0:00".
Proof.
  intros L U. unfold formatTime, Math_floor.
  assert (F : Qfloor (q / 1000) = 0%Z).
  { assert (A : 0 <= q / 1000) by (apply Qle_shift_div_l; lra).
    assert (B : q / 1000 < 1) by (apply Qlt_shift_div_r; lra).
    pose proof (Qfloor_le (q / 1000)) as F1.
    pose proof (Qlt_floor (q / 1000)) as F2.
    assert (C1 : (inject_Z (Qfloor (q / 1000)) < 1)) by lra.
    assert (C2 : (-1 < inject_Z (Qfloor (q / 1000)))).
    { rewrite inject_Z_plus in F2. change (inject_Z 1) with 1 in F2. lra. }
    change 1 with (inject_Z 1) in C1. change (-1) with (inject_Z (-1)) in C2.
    rewrite <- Zlt_Qlt in C1, C2. lia. }
  rewrite F. reflexivity.
Qed.

(** X22. The time labels never disagree with the formatter: the literal
    shown for a missing or zero value is what [formatTime] prints for 0, so
    each label is [formatTime] of the value, with 0 for a missing one; and
    throughout the first second the position label reads [0:00]. *)
Theorem labels_agree_with_formatTime (s : PlaybackStatus) :
  positionLabel s = formatTime (number (positionMillis s))
  /\ durationLabel s = formatTime (number (durationMillis s))
  /\ (forall x, positionMillis s = Some x -> 0 <= x -> x < 1000 ->
      positionLabel s = str "0:00").
Proof.
  assert (Z : forall o, (if truthy_field o then formatTime (number o) else str "0:00")
                        = formatTime (number o)).
  { intros [x|]; cbn [truthy_field number]; [|reflexivity].
    destruct (truthy_number x) eqn:T; [reflexivity|].
    apply truthy_number_false in T. now rewrite (formatTime_compat x 0 T). }
  split; [apply Z|]. split; [apply Z|].
  intros x E L U. unfold positionLabel. rewrite Z, E. now apply formatTime_first_second.
Qed.

Lemma seekRatio_mono (x x' w : Q) : 0 < w -> x <= x' -> seekRatio x w <= seekRatio x' w.
Proof.
  intros W L.
  assert (D : x / w <= x' / w).
  { unfold Qdiv. apply Qmult_le_compat_r; [exact L|].
    apply Qlt_le_weak. now apply Qinv_lt_0_compat. }
  unfold seekRatio.
  destruct (Math_max_spec (x / w) 0) as [[H1 E1]|[H1 E1]];
    destruct (Math_max_spec (x' / w) 0) as [[H2 E2]|[H2 E2]];
    rewrite E1, E2;
    match goal with
    | |- Math_min ?a 1 <= Math_min ?b 1 =>
        destruct (Math_min_spec a 1) as [[H3 E3]|[H3 E3]];
        destruct (Math_min_spec b 1) as [[H4 E4]|[H4 E4]];
        rewrite ?E3, ?E4
    end; lra.
Qed.

(** X25. On a loaded clip of positive duration and a track of positive
    width, a tap always issues exactly one seek, to a position between 0 and
    the duration, and changes no state; of two taps, the one further to the
    right never seeks to an earlier position. *)
Theorem seek_stays_within_clip (engine : Engine) (p : Player) (x x' d : Q) :
  0 < progressBarWidth p -> isLoaded (status p) = true -> videoRef p = true ->
  durationMillis (status p) = Some d -> 0 < d ->
  exists m m',
    handleSeek x engine p = (p, [SetPositionAsync m])
    /\ handleSeek x' engine p = (p, [SetPositionAsync m'])
    /\ 0 <= m <= d
    /\ (x <= x' -> m <= m').
Proof.
  intros W L V D Pd.
  assert (Tw : truthy_number (progressBarWidth p) = true) by (apply truthy_number_true; lra).
  assert (Td : truthy_number d = true) by (apply truthy_number_true; lra).
  assert (E : forall t, handleSeek t engine p
                        = (p, [SetPositionAsync (seekRatio t (progressBarWidth p) * d)])).
  { intros t. unfold handleSeek, seekTo. rewrite Tw, L, D, V. cbn. now rewrite Td. }
  exists (seekRatio x (progressBarWidth p) * d), (seekRatio x' (progressBarWidth p) * d).
  split; [apply E|]. split; [apply E|].
  pose proof (seekRatio_bounds x (progressBarWidth p)) as B. split.
  - nra.
  - intros Lx. pose proof (seekRatio_mono x x' _ W Lx). nra.
Qed.

Lemma seek_stays_within_clip_witness :
  exists m m',
    handleSeek 50 obliging sample = (sample, [SetPositionAsync m])
    /\ handleSeek 260 obliging sample = (sample, [SetPositionAsync m'])
    /\ 0 <= m <= 150000.
Proof.
  destruct (seek_stays_within_clip obliging sample 50 260 150000)
    as [m [m' [A [B [C _]]]]]; try reflexivity.
  exists m, m'. auto.
Defined.

End VideoPlayerExtras.
